(** * api_vk: photo export from a VK profile to a Yandex Disk folder

    A shallow embedding of [src/api_vk.py]: the size selector [max_size],
    the grouping and naming of photos ([VK.pars_photo], [VK.extract_photo])
    and the upload loop ([YandexDisk.fill_folder]), with the properties of
    the export mapping and of the requests sent to the disk. *)

From Stdlib Require Import ZArith List Bool Lia Permutation.
From Stdlib Require Lists.Finite.
From Stdlib Require Import Strings.Ascii Strings.String.
From Stdlib Require Import Numbers.DecimalString Numbers.DecimalZ.
Import ListNotations.

Open Scope string_scope.
Open Scope list_scope.
Open Scope Z_scope.

(* ================================================================= *)
(** ** Python values and exceptions *)

(** The exceptions the modelled code can raise. *)
Inductive exn : Type :=
| TypeError   (* unpacking [None], line 113 *)
| IndexError  (* list index out of range *)
| KeyError.   (* missing dictionary key *)

Inductive outcome (A : Type) : Type :=
| Ok (a : A)
| Raise (e : exn).
Arguments Ok {A} a.
Arguments Raise {A} e.

Definition bind {A B : Type} (m : outcome A) (k : A -> outcome B) : outcome B :=
  match m with
  | Ok a => k a
  | Raise e => Raise e
  end.

Notation "x <- m ;; k" := (bind m (fun x => k))
  (at level 61, m at next level, right associativity).
Notation "' p <- m ;; k" := (bind m (fun x => match x with p => k end))
  (at level 61, p pattern, m at next level, right associativity).

(** [l[i]] for a list and a non-negative index. *)
Definition getitem {A : Type} (l : list A) (i : nat) : outcome A :=
  match nth_error l i with
  | Some a => Ok a
  | None => Raise IndexError
  end.

(** [str(n)] for an [int]: decimal digits, with a leading minus sign for a
    negative number. *)
Definition str (n : Z) : string := NilZero.string_of_int (Z.to_int n).

(* ================================================================= *)
(** ** Insertion-ordered dictionaries

    A Python [dict] keeps its keys in insertion order, and the code
    iterates over [keys()] and [items()]: the model is an association
    list in which assigning to a key that is present keeps its place. *)

Section Dict.
Context {K V : Type}.
Variable eqb : K -> K -> bool.

Definition dict : Type := list (K * V).

(** [d.get(k)] *)
Fixpoint dict_get (d : dict) (k : K) : option V :=
  match d with
  | [] => None
  | (k', v) :: d' => if eqb k k' then Some v else dict_get d' k
  end.

(** [d.get(k, default)] *)
Definition dict_get_default (d : dict) (k : K) (default : V) : V :=
  match dict_get d k with
  | Some v => v
  | None => default
  end.

(** [d[k]] *)
Definition dict_getitem (d : dict) (k : K) : outcome V :=
  match dict_get d k with
  | Some v => Ok v
  | None => Raise KeyError
  end.

(** [d[k] = v] *)
Fixpoint dict_set (d : dict) (k : K) (v : V) : dict :=
  match d with
  | [] => [(k, v)]
  | (k', v') :: d' =>
      if eqb k k' then (k', v) :: d' else (k', v') :: dict_set d' k v
  end.

(** [d.keys()] *)
Definition keys (d : dict) : list K := map fst d.
End Dict.

Arguments dict K V : clear implicits.

(* ================================================================= *)
(** ** [max_size] *)

(** One entry of a photo's ['sizes'] list. *)
Record photo_size : Type := mkSize {
  width : Z;
  height : Z;
  url : string;
  type : string
}.

Definition area (p : photo_size) : Z := width p * height p.

(** The loop of lines 34-38 from index [number] on, over the entries
    [rest] still to visit; it returns the final [(maxim_size, element)]. *)
Fixpoint max_size_loop (rest : list photo_size) (number : Z)
    (maxim_size element : Z) : Z * Z :=
  match rest with
  | [] => (maxim_size, element)
  | p :: rest' =>
      let extent := width p * height p in
      if extent >? maxim_size
      then max_size_loop rest' (number + 1) extent number
      else max_size_loop rest' (number + 1) maxim_size element
  end.

Definition max_size (dict_photo : list photo_size)
    : outcome (option (string * string)) :=
  match dict_photo with
  | [] => Ok None
  | _ =>
      let '(_, element) := max_size_loop dict_photo 0 0 (-1) in
      if negb (element =? -1)
      then p <- getitem dict_photo (Z.to_nat element) ;;
           Ok (Some (url p, type p))
      else Ok None
  end.

(* ================================================================= *)
(** ** [VK.pars_photo] and [VK.extract_photo] *)

(** One element of the ['items'] list of the [photos.get] response:
    [item['likes']['count']] and [item['sizes']]. *)
Record photo_item : Type := mkItem {
  likes_count : Z;
  sizes : list photo_size
}.

(** The dictionary [pars_photo] appends to a group (lines 115-119). *)
Record photo_info : Type := mkInfo {
  info_file_name : Z;
  info_size : string;
  info_url : string
}.

(** An element of [json_list] (line 140). *)
Record json_entry : Type := mkEntry {
  file_name : string;
  size : string
}.

(** [a, b = v]: unpacking [None] raises [TypeError]. *)
Definition unpack2 {A B : Type} (v : option (A * B)) : outcome (A * B) :=
  match v with
  | Some ab => Ok ab
  | None => Raise TypeError
  end.

(** The loop of lines 111-120 over the indices [counts]. *)
Fixpoint pars_photo_loop (photo_items : list photo_item) (counts : list nat)
    (result : dict Z (list photo_info)) : outcome (dict Z (list photo_info)) :=
  match counts with
  | [] => Ok result
  | count :: counts' =>
      item <- getitem photo_items count ;;
      let likes_count := likes_count item in
      best <- max_size (sizes item) ;;
      '(photo_url, photo_size) <- unpack2 best ;;
      let value := dict_get_default Z.eqb result likes_count [] in
      let value := value ++ [mkInfo likes_count photo_size photo_url] in
      pars_photo_loop photo_items counts' (dict_set Z.eqb result likes_count value)
  end.

(** [photo_count] and [photo_items] are what [get_photo_info] returns: the
    ['count'] and ['items'] fields of the response. *)
Definition pars_photo (photo_count : Z) (photo_items : list photo_item)
    : outcome (dict Z (list photo_info)) :=
  pars_photo_loop photo_items (seq 0 (Z.to_nat photo_count)) [].

(** The file name of lines 136-139 for the member [key] of the group of
    [element], a group of [n] members. *)
Definition make_file_name (element : Z) (n : nat) (key : photo_info) : string :=
  if (n =? 1)%nat
  then (str element ++ ".jpg")%string
  else (str element ++ " " ++ str (info_file_name key) ++ ".jpg")%string.

(** The inner loop of lines 135-141 over the members [members] of
    [photo_dict[element]] still to visit. *)
Fixpoint extract_photo_group (photo_dict : dict Z (list photo_info))
    (element : Z) (members : list photo_info)
    (json_list : list json_entry) (json_dict : dict string string)
    : outcome (list json_entry * dict string string) :=
  match members with
  | [] => Ok (json_list, json_dict)
  | key :: members' =>
      group <- dict_getitem Z.eqb photo_dict element ;;
      let file_name := make_file_name element (List.length group) key in
      let json_list := json_list ++ [mkEntry file_name (info_size key)] in
      group <- dict_getitem Z.eqb photo_dict element ;;
      first <- getitem group 0 ;;
      let json_dict := dict_set String.eqb json_dict file_name (info_url first) in
      extract_photo_group photo_dict element members' json_list json_dict
  end.

(** The outer loop of lines 134-141 over the keys [elements]. *)
Fixpoint extract_photo_loop (photo_dict : dict Z (list photo_info))
    (elements : list Z)
    (json_list : list json_entry) (json_dict : dict string string)
    : outcome (list json_entry * dict string string) :=
  match elements with
  | [] => Ok (json_list, json_dict)
  | element :: elements' =>
      group <- dict_getitem Z.eqb photo_dict element ;;
      '(json_list, json_dict) <-
        extract_photo_group photo_dict element group json_list json_dict ;;
      extract_photo_loop photo_dict elements' json_list json_dict
  end.

Definition extract_photo (photo_count : Z) (photo_items : list photo_item)
    : outcome (list json_entry * dict string string) :=
  photo_dict <- pars_photo photo_count photo_items ;;
  extract_photo_loop photo_dict (keys photo_dict) [] [].

(* ================================================================= *)
(** ** [YandexDisk]: requests, responses and the program state *)

Inductive http_method : Type := GET | PUT | POST | PATCH | DELETE.

(** A call of [requests.get], [requests.put] or [requests.post]. *)
Record request : Type := mkRequest {
  method : http_method;
  req_url : string;
  headers : list (string * string);
  params : list (string * string)
}.

(** What the code reads of a response: [status_code], the names of
    [json()['_embedded']['items']] and [json()] as it is printed. *)
Record response : Type := mkResponse {
  status_code : Z;
  item_names : list string;
  json : string
}.

(** The lines written by [print], by the line of the source that writes
    them. *)
Inductive line : Type :=
| ListingFailed (body : string)              (* line 213 *)
| PhotoAdded (key : string)                  (* line 234 *)
| UploadFailed (key : string) (body : string)  (* line 237 *)
| AlreadyExists (key : string)               (* line 239 *)
| AddedTotal (count : Z).                    (* line 240 *)

(** The attributes of a [YandexDisk] object. *)
Record YandexDisk : Type := mkYandexDisk {
  yd_url : string;
  yd_headers : list (string * string);
  folder_name : string
}.

(** [YandexDisk.__init__] *)
Definition YandexDisk_init (token folder_name : string) : YandexDisk :=
  {| yd_url := "https://cloud-api.yandex.net/v1/disk/resources";
     yd_headers := [("Content-Type", "application/json");
                    ("Accept", "application/json");
                    ("Authorization", ("OAuth " ++ token)%string)];
     folder_name := folder_name |}.

(** [key in l] for a list of strings. *)
Definition contains (l : list string) (key : string) : bool :=
  existsb (String.eqb key) l.

(** The request of line 207. *)
Definition listing_request (self : YandexDisk) (folder_name : string) : request :=
  mkRequest GET (yd_url self) (yd_headers self) [("path", folder_name)].

(** The request of lines 231-232. *)
Definition upload_request (self : YandexDisk) (key url : string) : request :=
  mkRequest POST (yd_url self ++ "/upload")%string (yd_headers self)
    [("path", (folder_name self ++ "/" ++ key)%string);
     ("url", url);
     ("overwrite", "true")].

Section Disk.
(** The remote service: a state and its reaction to one request. *)
Variable World : Type.
Variable send : World -> request -> World * response.

(** The state the program runs in: the service, the requests sent so
    far and the lines printed so far. *)
Record state : Type := mkState {
  world : World;
  sent : list request;
  stdout : list line
}.

Definition io (A : Type) : Type := state -> A * state.

Definition ret {A : Type} (a : A) : io A := fun s => (a, s).

Definition iobind {A B : Type} (m : io A) (k : A -> io B) : io B :=
  fun s => let '(a, s') := m s in k a s'.

Local Notation "x <-- m ;;; k" := (iobind m (fun x => k))
  (at level 61, m at next level, right associativity).
Local Notation "m ;;; k" := (iobind m (fun _ => k))
  (at level 61, right associativity).

Definition requests_send (r : request) : io response :=
  fun s =>
    let '(w, resp) := send (world s) r in
    (resp, mkState w (sent s ++ [r]) (stdout s)).

Definition print (l : line) : io unit :=
  fun s => (tt, mkState (world s) (sent s) (stdout s ++ [l])).

(** [YandexDisk.folder_rec] *)
Definition folder_rec (self : YandexDisk) (folder_name : string)
    : io (list string) :=
  response <-- requests_send (listing_request self folder_name) ;;;
  if status_code response =? 200
  then ret (item_names response)
  else print (ListingFailed (json response)) ;;; ret [].

(** The loop of lines 229-239 over the items [items] still to visit. *)
Fixpoint fill_folder_loop (self : YandexDisk) (files_in_folder : list string)
    (items : list (string * string)) (count : Z) : io Z :=
  match items with
  | [] => ret count
  | (key, url) :: items' =>
      if negb (contains files_in_folder key)
      then
        response <-- requests_send (upload_request self key url) ;;;
        if status_code response =? 202
        then print (PhotoAdded key) ;;;
             fill_folder_loop self files_in_folder items' (count + 1)
        else print (UploadFailed key (json response)) ;;;
             fill_folder_loop self files_in_folder items' count
      else print (AlreadyExists key) ;;;
           fill_folder_loop self files_in_folder items' count
  end.

(** [YandexDisk.fill_folder] *)
Definition fill_folder (self : YandexDisk) (dict_files : dict string string)
    : io unit :=
  files_in_folder <-- folder_rec self (folder_name self) ;;;
  count <-- fill_folder_loop self files_in_folder dict_files 0 ;;;
  print (AddedTotal count).

(** The state before the program has done anything. *)
Definition start (w : World) : state := mkState w [] [].
End Disk.

Arguments world {World} s.
Arguments sent {World} s.
Arguments stdout {World} s.
Arguments start {World} w.

(** The upload requests among the requests sent. *)
Definition posted (log : list request) : list request :=
  filter (fun r => match method r with POST => true | _ => false end) log.

(** The file names reported as present among the lines printed. *)
Fixpoint skipped (out : list line) : list string :=
  match out with
  | [] => []
  | AlreadyExists key :: out' => key :: skipped out'
  | _ :: out' => skipped out'
  end.

(** The sync plan, in the words of the specification: the entries of the
    export mapping whose name is not in the remote listing, in the
    mapping's order, and the names that are. *)
Definition toUpload (exportSet : dict string string) (remote : list string)
    : list (string * string) :=
  filter (fun kv => negb (contains remote (fst kv))) exportSet.

Definition toSkip (exportSet : dict string string) (remote : list string)
    : list string :=
  filter (contains remote) (keys exportSet).

(** A small disk to run the program against: the stored paths with the
    address each was fetched from. An upload stores its address under its
    path and answers 202; a listing answers 200 with the names stored
    under the folder asked for. *)
Fixpoint strip_prefix (prefix s : string) : option string :=
  match prefix with
  | EmptyString => Some s
  | String a prefix' =>
      match s with
      | EmptyString => None
      | String b s' => if Ascii.eqb a b then strip_prefix prefix' s' else None
      end
  end.

Fixpoint names_under (folder : string) (paths : list string) : list string :=
  match paths with
  | [] => []
  | p :: paths' =>
      match strip_prefix (folder ++ "/") p with
      | Some name => name :: names_under folder paths'
      | None => names_under folder paths'
      end
  end.

Definition param (r : request) (name : string) : option string :=
  dict_get String.eqb (params r) name.

Definition disk_send (w : dict string string) (r : request)
    : dict string string * response :=
  match method r with
  | GET =>
      match param r "path" with
      | Some folder => (w, mkResponse 200 (names_under folder (keys w)) "{}")
      | None => (w, mkResponse 400 [] "{}")
      end
  | POST =>
      match param r "path", param r "url" with
      | Some path, Some url =>
          (dict_set String.eqb w path url, mkResponse 202 [] "{}")
      | _, _ => (w, mkResponse 400 [] "{}")
      end
  | _ => (w, mkResponse 405 [] "{}")
  end.

Definition disk_content (w : dict string string) (path : string)
    : option string :=
  dict_get String.eqb w path.

(** What is asked of a remote service for the frame property: answering a
    [GET] changes no stored file, and answering a [POST] changes at most
    the file at the request's ['path']. *)
Definition respects_frame {World : Type}
    (send : World -> request -> World * response)
    (content : World -> string -> option string) : Prop :=
  forall (w : World) (r : request) (path : string),
    (method r = GET -> content (fst (send w r)) path = content w path) /\
    (method r = POST -> param r "path" <> Some path ->
     content (fst (send w r)) path = content w path).

(** Well-formed input, as the data model has it: a photo has at least one
    size, and a size has positive width and height. *)
Definition positive_size (p : photo_size) : Prop := 0 < width p /\ 0 < height p.

Definition well_formed (item : photo_item) : Prop :=
  sizes item <> [] /\ Forall positive_size (sizes item).

(** The like counts of a collection, each once, in the order of their
    first appearance. *)
Fixpoint distinct (l : list Z) : list Z :=
  match l with
  | [] => []
  | x :: l' => x :: filter (fun y => negb (y =? x)) (distinct l')
  end.

(** The photos of a collection with like count [L], in input order. *)
Definition group_of (L : Z) (photo_items : list photo_item) : list photo_item :=
  filter (fun item => likes_count item =? L) photo_items.

(** What [max_size] selects for a photo: its url and type. *)
Definition selected (item : photo_item) : option (string * string) :=
  match max_size (sizes item) with
  | Ok (Some best) => Some best
  | _ => None
  end.

(** A photo for which [max_size] has something to select. *)
Definition selectable (item : photo_item) : Prop :=
  exists p, In p (sizes item) /\ 0 < area p.

(** The dictionary [pars_photo] builds for a photo. *)
Definition info_of (item : photo_item) : photo_info :=
  match selected item with
  | Some (photo_url, photo_size) => mkInfo (likes_count item) photo_size photo_url
  | None => mkInfo (likes_count item) "" ""
  end.

(** The body of [pars_photo]'s loop as a recursion over the items. *)
Fixpoint pars_items (photo_items : list photo_item)
    (result : dict Z (list photo_info)) : outcome (dict Z (list photo_info)) :=
  match photo_items with
  | [] => Ok result
  | item :: photo_items' =>
      best <- max_size (sizes item) ;;
      '(photo_url, photo_size) <- unpack2 best ;;
      let value := dict_get_default Z.eqb result (likes_count item) [] in
      let value := value ++ [mkInfo (likes_count item) photo_size photo_url] in
      pars_items photo_items' (dict_set Z.eqb result (likes_count item) value)
  end.

(** The grouping [pars_photo] computes, in closed form. *)
Definition grouped (photo_items : list photo_item) : dict Z (list photo_info) :=
  map (fun L => (L, map info_of (group_of L photo_items)))
      (distinct (map likes_count photo_items)).

(** The file name of the photos with like count [L]: ["L.jpg"] when [L]
    occurs once in the collection, ["L L.jpg"] otherwise. *)
Definition name_of (photo_items : list photo_item) (L : Z) : string :=
  if (List.length (group_of L photo_items) =? 1)%nat
  then (str L ++ ".jpg")%string
  else (str L ++ " " ++ str L ++ ".jpg")%string.

Definition entry_of (photo_items : list photo_item) (item : photo_item)
    : json_entry :=
  mkEntry (name_of photo_items (likes_count item)) (info_size (info_of item)).

(** The photos of a collection group by group, the groups in the order
    of first appearance of their like count. *)
Definition by_group (photo_items : list photo_item) : list photo_item :=
  flat_map (fun L => group_of L photo_items)
           (distinct (map likes_count photo_items)).

(** The url stored for the group of [L]: that of its first member. *)
Definition group_url (photo_items : list photo_item) (L : Z) : string :=
  match group_of L photo_items with
  | first :: _ => info_url (info_of first)
  | [] => ""
  end.

Definition json_list_of (photo_items : list photo_item) : list json_entry :=
  map (entry_of photo_items) (by_group photo_items).

Definition json_dict_of (photo_items : list photo_item) : dict string string :=
  map (fun L => (name_of photo_items L, group_url photo_items L))
      (distinct (map likes_count photo_items)).

(** The first and the last photo of a group. *)
Definition first_of (group : list photo_item) : option photo_item := hd_error group.

Definition last_of (group : list photo_item) : option photo_item :=
  hd_error (rev group).

(** For a like count [L] that occurs [k] times in a collection: the
    export succeeds, [k] entries of the list are named ["L L.jpg"], and
    the mapping holds under that name the url selected for the member of
    the group that [pick] chooses. *)
Definition export_keeps (pick : list photo_item -> option photo_item)
    (photo_items : list photo_item) (L : Z) : Prop :=
  exists json_list json_dict member photo_url photo_size,
    extract_photo (Z.of_nat (List.length photo_items)) photo_items
      = Ok (json_list, json_dict) /\
    count_occ string_dec (map file_name json_list)
      (str L ++ " " ++ str L ++ ".jpg")%string
      = List.length (group_of L photo_items) /\
    pick (group_of L photo_items) = Some member /\
    max_size (sizes member) = Ok (Some (photo_url, photo_size)) /\
    dict_get String.eqb json_dict (str L ++ " " ++ str L ++ ".jpg")%string
      = Some photo_url.

(** The characters of a string. *)
Definition chars (s : string) : list ascii := list_ascii_of_string s.

(** What holds of [maxim_size] and [element] after the entries [seen]. *)
Definition scanned (seen : list photo_size) (maxim_size element : Z) : Prop :=
  (forall p, In p seen -> area p <= maxim_size) /\
  ((element = -1 /\ maxim_size = 0) \/
   (exists best,
      0 <= element /\
      nth_error seen (Z.to_nat element) = Some best /\
      area best = maxim_size /\ 0 < maxim_size /\
      forall j p, (j < Z.to_nat element)%nat ->
                  nth_error seen j = Some p -> area p < maxim_size)).

(* ================================================================= *)
(** ** [YandexDisk.create_folder] *)


(** The request of line 183; that of line 181 is [listing_request]. *)
Definition creation_request (self : YandexDisk) (folder_name : string) : request :=
  mkRequest PUT (yd_url self) (yd_headers self) [("path", folder_name)].

Section Folder.
Variable World : Type.
Variable send : World -> request -> World * response.


(** The answers of the service to a sequence of requests sent one after
    the other from the state [w], and the state it is left in. *)
Fixpoint run_log (w : World) (log : list request) : World * list response :=
  match log with
  | [] => (w, [])
  | r :: log' =>
      let '(w', resp) := send w r in
      let '(w'', resps) := run_log w' log' in
      (w'', resp :: resps)
  end.
End Folder.

(* ================================================================= *)
(** ** The script of lines 243-249 *)

(** [VK.__init__], and the call of line 245: [fetch] is what
    [get_photo_info] returns, or the exception it raises. The result is
    the pair kept in [self.json] and [self.export_dict]. *)
Definition VK_extract (fetch : outcome (Z * list photo_item))
    : outcome (list json_entry * dict string string) :=
  '(photo_count, photo_items) <- fetch ;;
  extract_photo photo_count photo_items.

Section Script.
Variable World : Type.
Variable send : World -> request -> World * response.

(** Lines 243-249, for the two answers [fetch1] and [fetch2] of the photo
    API and the token read for the disk: the mapping printed by line 245,
    the list printed by line 246 and the state [fill_folder] ends in. *)
Definition run_script (fetch1 fetch2 : outcome (Z * list photo_item))
    (token_yandex : string) (w : World)
    : outcome (dict string string * list json_entry * state World) :=
  '(vk_json, vk_export_dict) <- VK_extract fetch1 ;;
  '(_, printed) <- VK_extract fetch2 ;;
  let yandex := YandexDisk_init token_yandex "vk_photos" in
  Ok (printed, vk_json,
      snd (fill_folder World send yandex vk_export_dict (start w))).
End Script.

(* ================================================================= *)
(** ** Reading the output and the input *)

(** The file name a printed line is about. *)
Definition line_key (l : line) : option string :=
  match l with
  | PhotoAdded key => Some key
  | UploadFailed key _ => Some key
  | AlreadyExists key => Some key
  | _ => None
  end.

(** The file names reported on, in the order of the lines. *)
Fixpoint reported (out : list line) : list string :=
  match out with
  | [] => []
  | l :: out' =>
      match line_key l with
      | Some key => key :: reported out'
      | None => reported out'
      end
  end.

(** The number of photos reported as added (line 234). *)
Fixpoint added (out : list line) : Z :=
  match out with
  | [] => 0
  | PhotoAdded _ :: out' => 1 + added out'
  | _ :: out' => added out'
  end.

(** The number of answers with status 202. *)
Fixpoint accepted (resps : list response) : Z :=
  match resps with
  | [] => 0
  | resp :: resps' =>
      (if status_code resp =? 202 then 1 else 0) + accepted resps'
  end.

(** A photo none of whose sizes has a positive area. *)
Definition no_positive_area (item : photo_item) : Prop :=
  Forall (fun p => area p <= 0) (sizes item).


(* ================================================================= *)
(* ================================================================= *)
(** * Theorems *)

(* ================================================================= *)
(** ** Properties of [max_size] *)

Section MaxSize.

Lemma scanned_nonneg seen m e : scanned seen m e -> 0 <= m.
Proof. intros [_ [[_ ->] | (b & _ & _ & _ & Hm & _)]]; lia. Qed.

Lemma scanned_step seen m e p :
  scanned seen m e ->
  scanned (seen ++ [p])
    (if area p >? m then area p else m)
    (if area p >? m then Z.of_nat (List.length seen) else e).
Proof.
  intros Hs. pose proof (scanned_nonneg _ _ _ Hs) as Hm.
  destruct Hs as [Hle Hsel].
  destruct (Z.gtb_spec (area p) m) as [Hgt | Hngt].
  - split.
    + intros q Hq. apply in_app_or in Hq as [Hq | [<- | []]]; [|lia].
      specialize (Hle q Hq). lia.
    + right. exists p. rewrite Nat2Z.id.
      split; [lia|]. split.
      { rewrite nth_error_app2, Nat.sub_diag by lia. reflexivity. }
      split; [reflexivity|]. split; [lia|].
      intros j q Hj Hq. rewrite nth_error_app1 in Hq by assumption.
      apply nth_error_In in Hq. specialize (Hle q Hq). lia.
  - split.
    + intros q Hq. apply in_app_or in Hq as [Hq | [<- | []]]; auto.
    + destruct Hsel as [Hnone | (b & He & Hb & Hab & Hpos & Hfirst)];
        [left; exact Hnone|].
      right. exists b.
      assert (Hlt : (Z.to_nat e < List.length seen)%nat).
      { apply nth_error_Some. congruence. }
      repeat split; auto.
      * rewrite nth_error_app1 by assumption. exact Hb.
      * intros j q Hj Hq. rewrite nth_error_app1 in Hq by lia. eauto.
Qed.

Lemma max_size_loop_scanned rest : forall seen m e,
  scanned seen m e ->
  scanned (seen ++ rest)
    (fst (max_size_loop rest (Z.of_nat (List.length seen)) m e))
    (snd (max_size_loop rest (Z.of_nat (List.length seen)) m e)).
Proof.
  induction rest as [|p rest IH]; intros seen m e Hs; simpl.
  - rewrite app_nil_r. exact Hs.
  - apply (scanned_step _ _ _ p) in Hs. fold (area p).
    replace (Z.of_nat (List.length seen) + 1)
      with (Z.of_nat (List.length (seen ++ [p])))
      by (rewrite length_app; simpl; lia).
    replace (seen ++ p :: rest) with ((seen ++ [p]) ++ rest)
      by (rewrite <- app_assoc; reflexivity).
    destruct (area p >? m); apply IH; exact Hs.
Qed.

(** [max_size] never raises; it returns [None] exactly when no entry
    has a positive area, and otherwise the first entry of the largest
    area. *)
Lemma max_size_spec dict_photo :
  (max_size dict_photo = Ok None /\
   forall p, In p dict_photo -> area p <= 0) \/
  (exists i best,
     nth_error dict_photo i = Some best /\
     max_size dict_photo = Ok (Some (url best, type best)) /\
     0 < area best /\
     (forall p, In p dict_photo -> area p <= area best) /\
     (forall j p, (j < i)%nat -> nth_error dict_photo j = Some p ->
                  area p < area best)).
Proof.
  destruct dict_photo as [|p0 rest] eqn:E.
  - left. split; [reflexivity | intros p []].
  - rewrite <- E.
    assert (Hinit : scanned [] 0 (-1)).
    { split; [intros p [] | left; split; reflexivity]. }
    apply (max_size_loop_scanned dict_photo) in Hinit. simpl in Hinit.
    assert (Hdef : max_size dict_photo =
              let '(_, element) := max_size_loop dict_photo 0 0 (-1) in
              if negb (element =? -1)
              then p <- getitem dict_photo (Z.to_nat element) ;;
                   Ok (Some (url p, type p))
              else Ok None).
    { rewrite E. reflexivity. }
    rewrite Hdef. clear Hdef.
    destruct (max_size_loop dict_photo 0 0 (-1)) as [m e]. simpl in Hinit.
    destruct Hinit as [Hle [[-> ->] | (b & He & Hb & Hab & Hpos & Hfirst)]].
    + left. split; [reflexivity | exact Hle].
    + right. exists (Z.to_nat e), b.
      destruct (Z.eqb_spec e (-1)) as [-> | _]; [lia|]. simpl.
      unfold getitem. rewrite Hb. simpl. rewrite Hab.
      repeat split; auto.
Qed.

End MaxSize.

(** C3: for a non-empty list of sizes of positive width and height,
    [max_size] returns the url and type of an entry of the largest
    width x height, and of the first one in input order among those of
    that area. *)
Theorem max_size_first_largest (dict_photo : list photo_size) :
  dict_photo <> [] ->
  Forall positive_size dict_photo ->
  exists i best,
    nth_error dict_photo i = Some best /\
    max_size dict_photo = Ok (Some (url best, type best)) /\
    (forall p, In p dict_photo -> area p <= area best) /\
    (forall j p, (j < i)%nat -> nth_error dict_photo j = Some p ->
                 area p < area best).
Proof.
  intros Hne Hpos.
  destruct (max_size_spec dict_photo)
    as [[_ Hle] | (i & best & Hi & Hm & _ & Hmax & Hfirst)].
  - destruct dict_photo as [|p rest]; [contradiction|].
    apply Forall_inv in Hpos. destruct Hpos as [Hw Hh].
    specialize (Hle p (or_introl eq_refl)). unfold area in Hle. nia.
  - exists i, best. auto.
Qed.

Lemma max_size_first_largest_witness :
  exists i best,
    nth_error [mkSize 2 3 "a" "s"; mkSize 3 2 "b" "m"; mkSize 1 1 "c" "o"] i
      = Some best /\
    max_size [mkSize 2 3 "a" "s"; mkSize 3 2 "b" "m"; mkSize 1 1 "c" "o"]
      = Ok (Some (url best, type best)) /\
    (forall p, In p [mkSize 2 3 "a" "s"; mkSize 3 2 "b" "m"; mkSize 1 1 "c" "o"]
               -> area p <= area best) /\
    (forall j p, (j < i)%nat ->
       nth_error [mkSize 2 3 "a" "s"; mkSize 3 2 "b" "m"; mkSize 1 1 "c" "o"] j
         = Some p -> area p < area best).
Proof.
  apply (max_size_first_largest
           [mkSize 2 3 "a" "s"; mkSize 3 2 "b" "m"; mkSize 1 1 "c" "o"]).
  - discriminate.
  - repeat constructor.
Defined.

(** C7: called with an empty list, [max_size] returns [None]: no entry,
    and no exception. *)
Theorem max_size_empty : max_size [] = Ok None.
Proof. reflexivity. Qed.

(** C9: on a list in which every width x height is 0, [max_size] returns
    [None], also when the list is not empty (there are such lists); it
    returns an entry only if some entry has a positive area. *)
Theorem max_size_zero_area :
  (forall dict_photo,
     Forall (fun p => area p = 0) dict_photo -> max_size dict_photo = Ok None) /\
  (exists dict_photo, dict_photo <> [] /\ max_size dict_photo = Ok None) /\
  (forall dict_photo best,
     max_size dict_photo = Ok (Some best) ->
     Exists (fun p => 0 < area p) dict_photo).
Proof.
  split; [|split].
  - intros dict_photo Hz.
    destruct (max_size_spec dict_photo)
      as [[Hm _] | (i & best & Hi & _ & Hpos & _)]; [exact Hm|].
    apply nth_error_In in Hi. rewrite Forall_forall in Hz.
    specialize (Hz best Hi). lia.
  - exists [mkSize 0 5 "a" "s"; mkSize 3 0 "b" "m"].
    split; [discriminate | reflexivity].
  - intros dict_photo best Hm.
    destruct (max_size_spec dict_photo)
      as [[Hn _] | (i & b & Hi & _ & Hpos & _)]; [congruence|].
    apply Exists_exists. exists b. split; [|exact Hpos].
    eapply nth_error_In; eauto.
Qed.

Lemma max_size_zero_area_witness :
  max_size [mkSize 0 5 "a" "s"; mkSize 3 0 "b" "m"] = Ok None /\
  Exists (fun p => 0 < area p) [mkSize 0 5 "a" "s"; mkSize 3 4 "b" "m"].
Proof.
  split.
  - apply (proj1 max_size_zero_area). repeat constructor.
  - apply (proj2 (proj2 max_size_zero_area) _ ("b", "m")). reflexivity.
Defined.

(* ================================================================= *)
(** ** Insertion-ordered dictionaries *)

Section DictFacts.
Context {K V : Type}.
Variable eqb : K -> K -> bool.
Hypothesis eqb_eq : forall a b, eqb a b = true <-> a = b.

Lemma dict_eqb_refl k : eqb k k = true.
Proof. apply eqb_eq. reflexivity. Qed.

Lemma dict_eqb_neq a b : a <> b -> eqb a b = false.
Proof.
  intros Hne. destruct (eqb a b) eqn:E; [|reflexivity].
  apply eqb_eq in E. contradiction.
Qed.

Lemma dict_get_notin (d : dict K V) k :
  ~ In k (keys d) -> dict_get eqb d k = None.
Proof.
  induction d as [|[k' v] d IH]; simpl; intros Hn; [reflexivity|].
  rewrite dict_eqb_neq by (intros ->; apply Hn; left; reflexivity).
  apply IH. intros Hin. apply Hn. right. exact Hin.
Qed.

Lemma dict_get_map (f : K -> V) ks k :
  In k ks -> dict_get eqb (map (fun x => (x, f x)) ks) k = Some (f k).
Proof.
  induction ks as [|x ks IH]; simpl; intros Hin; [contradiction|].
  destruct (eqb k x) eqn:E.
  - apply eqb_eq in E. subst. reflexivity.
  - destruct Hin as [-> | Hin]; [rewrite dict_eqb_refl in E; discriminate|].
    apply IH. exact Hin.
Qed.

Lemma keys_map (f : K -> V) ks : keys (map (fun x => (x, f x)) ks) = ks.
Proof. unfold keys. rewrite map_map. simpl. apply map_id. Qed.

Lemma dict_set_notin (d : dict K V) k v :
  ~ In k (keys d) -> dict_set eqb d k v = d ++ [(k, v)].
Proof.
  induction d as [|[k' v'] d IH]; simpl; intros Hn; [reflexivity|].
  rewrite dict_eqb_neq by (intros ->; apply Hn; left; reflexivity).
  f_equal. apply IH. intros Hin. apply Hn. right. exact Hin.
Qed.

Lemma dict_set_map_in (f : K -> V) ks k v :
  NoDup ks -> In k ks ->
  dict_set eqb (map (fun x => (x, f x)) ks) k v
  = map (fun x => (x, if eqb x k then v else f x)) ks.
Proof.
  induction ks as [|x ks IH]; simpl; intros Hnd Hin; [contradiction|].
  inversion Hnd as [|? ? Hx Hnd']; subst.
  destruct (eqb k x) eqn:E.
  - apply eqb_eq in E. subst x. rewrite dict_eqb_refl. f_equal.
    apply map_ext_in. intros y Hy.
    rewrite dict_eqb_neq by (intros ->; contradiction). reflexivity.
  - destruct Hin as [-> | Hin]; [rewrite dict_eqb_refl in E; discriminate|].
    rewrite dict_eqb_neq by (intros ->; contradiction).
    f_equal. apply IH; assumption.
Qed.

Lemma dict_set_idem (d : dict K V) k v :
  dict_set eqb (dict_set eqb d k v) k v = dict_set eqb d k v.
Proof.
  induction d as [|[k' v'] d IH]; simpl.
  - rewrite dict_eqb_refl. reflexivity.
  - destruct (eqb k k') eqn:E; simpl; rewrite E; [reflexivity|].
    f_equal. exact IH.
Qed.
End DictFacts.

(* ================================================================= *)
(** ** Decimal strings and file names *)

Lemma chars_app a b : chars (a ++ b)%string = chars a ++ chars b.
Proof. induction a as [|c a IH]; simpl; [reflexivity | f_equal; exact IH]. Qed.

Lemma chars_inj a b : chars a = chars b -> a = b.
Proof.
  intros H. rewrite <- (string_of_list_ascii_of_string a),
    <- (string_of_list_ascii_of_string b). unfold chars in H. rewrite H.
  reflexivity.
Qed.

Lemma uint_no_space d :
  ~ In " "%char (chars (NilEmpty.string_of_uint d)).
Proof.
  induction d; simpl; intros H; try contradiction;
    destruct H as [H | H]; try discriminate; contradiction.
Qed.

Lemma str_no_space n : ~ In " "%char (chars (str n)).
Proof.
  unfold str. destruct (Z.to_int n) as [d | d]; simpl.
  - destruct d; try apply uint_no_space.
    simpl. intros [H | []]. discriminate.
  - intros [H | H]; [discriminate|]. revert H.
    destruct d; try apply uint_no_space.
    simpl. intros [H | []]. discriminate.
Qed.

Lemma str_inj a b : str a = str b -> a = b.
Proof.
  unfold str. intros H. apply DecimalZ.to_int_inj.
  assert (Hnz : forall z, Z.to_int z <> Decimal.Pos Decimal.Nil /\
                          Z.to_int z <> Decimal.Neg Decimal.Nil).
  { intros [|p|p]; simpl; split; try discriminate;
      intros [= Hp]; revert Hp; apply DecimalPos.Unsigned.to_uint_nonnil. }
  assert (Some (Z.to_int a) = Some (Z.to_int b)) as [= ->]; [|reflexivity].
  rewrite <- (NilZero.isi (Z.to_int a)), <- (NilZero.isi (Z.to_int b));
    try apply Hnz.
  rewrite H. reflexivity.
Qed.

Lemma split_at_first {A : Type} (c : A) (a b r r' : list A) :
  ~ In c a -> ~ In c b -> a ++ c :: r = b ++ c :: r' -> a = b.
Proof.
  revert b. induction a as [|x a IH]; intros [|y b] Ha Hb H; simpl in *.
  - reflexivity.
  - injection H as <- _. exfalso. apply Hb. left. reflexivity.
  - injection H as -> _. exfalso. apply Ha. left. reflexivity.
  - injection H as -> H. f_equal. apply (IH b); auto.
Qed.

(** Two like counts have the same file name only if they are equal,
    whatever the sizes of their groups. *)
Lemma name_of_inj photo_items L L' :
  name_of photo_items L = name_of photo_items L' -> L = L'.
Proof.
  unfold name_of. intros H. apply str_inj. apply chars_inj.
  apply (f_equal chars) in H.
  pose proof (str_no_space L) as HL. pose proof (str_no_space L') as HL'.
  destruct (List.length (group_of L photo_items) =? 1)%nat,
           (List.length (group_of L' photo_items) =? 1)%nat;
    repeat rewrite chars_app in H.
  - apply app_inv_tail in H. exact H.
  - exfalso.
    assert (Hin : In " "%char (chars (str L) ++ chars ".jpg")).
    { rewrite H. apply in_or_app. right. left. reflexivity. }
    apply in_app_or in Hin as [Hin | Hin]; [contradiction|].
    simpl in Hin. repeat (destruct Hin as [Hin | Hin]; [discriminate|]).
    contradiction.
  - exfalso.
    assert (Hin : In " "%char (chars (str L') ++ chars ".jpg")).
    { rewrite <- H. apply in_or_app. right. left. reflexivity. }
    apply in_app_or in Hin as [Hin | Hin]; [contradiction|].
    simpl in Hin. repeat (destruct Hin as [Hin | Hin]; [discriminate|]).
    contradiction.
  - simpl in H. eapply split_at_first; eauto.
Qed.

(* ================================================================= *)
(** ** Distinct like counts and groups *)

Lemma distinct_In l x : In x (distinct l) <-> In x l.
Proof.
  induction l as [|a l IH]; simpl; [tauto|].
  rewrite filter_In, IH. destruct (Z.eqb_spec x a); simpl; split.
  - intros [H | [H _]]; auto.
  - intros _. left. congruence.
  - intros [H | [H _]]; auto.
  - intros [H | H]; [left; exact H | right; split; [exact H | reflexivity]].
Qed.

Lemma distinct_NoDup l : NoDup (distinct l).
Proof.
  induction l as [|a l IH]; simpl; constructor.
  - rewrite filter_In. intros [_ H]. rewrite Z.eqb_refl in H. discriminate.
  - apply NoDup_filter. exact IH.
Qed.

Lemma distinct_snoc l x :
  distinct (l ++ [x]) = if in_dec Z.eq_dec x l then distinct l
                        else distinct l ++ [x].
Proof.
  induction l as [|a l IH]; simpl; [reflexivity|].
  rewrite IH. destruct (in_dec Z.eq_dec x l) as [Hin | Hnin].
  - destruct (Z.eq_dec a x); reflexivity.
  - rewrite filter_app. simpl.
    destruct (Z.eq_dec a x) as [-> | Hne].
    + rewrite Z.eqb_refl. simpl. rewrite app_nil_r. reflexivity.
    + destruct (Z.eqb_spec x a); [congruence|]. reflexivity.
Qed.

Lemma group_of_snoc L photo_items item :
  group_of L (photo_items ++ [item])
  = group_of L photo_items ++ (if likes_count item =? L then [item] else []).
Proof. unfold group_of. rewrite filter_app. reflexivity. Qed.

Lemma group_of_nonempty L photo_items :
  In L (map likes_count photo_items) -> group_of L photo_items <> [].
Proof.
  intros Hin. apply in_map_iff in Hin as (item & <- & Hin).
  intros Hnil.
  assert (H : In item (group_of (likes_count item) photo_items)).
  { apply filter_In. split; [exact Hin | apply Z.eqb_refl]. }
  rewrite Hnil in H. contradiction.
Qed.

Lemma group_of_likes L photo_items item :
  In item (group_of L photo_items) -> likes_count item = L.
Proof. intros H. apply filter_In in H as [_ H]. apply Z.eqb_eq. exact H. Qed.

Lemma group_of_empty L photo_items :
  ~ In L (map likes_count photo_items) -> group_of L photo_items = [].
Proof.
  intros Hn. destruct (group_of L photo_items) as [|item g] eqn:E; [reflexivity|].
  exfalso. apply Hn.
  assert (H : In item (group_of L photo_items)) by (rewrite E; left; reflexivity).
  apply filter_In in H as [Hin H]. apply Z.eqb_eq in H. subst L.
  apply in_map. exact Hin.
Qed.

(* ================================================================= *)
(** ** [pars_photo] *)

Lemma selectable_selected item :
  selectable item ->
  exists photo_url photo_size,
    max_size (sizes item) = Ok (Some (photo_url, photo_size)) /\
    info_of item = mkInfo (likes_count item) photo_size photo_url.
Proof.
  intros (p & Hin & Hpos). unfold info_of, selected.
  destruct (max_size_spec (sizes item))
    as [[_ Hle] | (i & best & _ & Hm & _)].
  - specialize (Hle p Hin). lia.
  - exists (url best), (type best). rewrite Hm. split; reflexivity.
Qed.

Lemma well_formed_selectable item : well_formed item -> selectable item.
Proof.
  intros [Hne Hpos]. destruct (sizes item) as [|p rest] eqn:E; [contradiction|].
  exists p. unfold selectable. rewrite E. split; [left; reflexivity|].
  apply Forall_inv in Hpos. destruct Hpos. unfold area. nia.
Qed.

Lemma pars_photo_loop_items photo_items : forall seen result,
  pars_photo_loop (seen ++ photo_items)
    (seq (List.length seen) (List.length photo_items)) result
  = pars_items photo_items result.
Proof.
  induction photo_items as [|item rest IH]; intros seen result; simpl;
    [reflexivity|].
  unfold getitem. rewrite nth_error_app2, Nat.sub_diag by lia. simpl.
  destruct (max_size (sizes item)) as [[[photo_url photo_size]|]|e]; simpl;
    try reflexivity.
  specialize (IH (seen ++ [item])).
  rewrite <- app_assoc, length_app, Nat.add_comm in IH. simpl in IH.
  apply IH.
Qed.

Lemma grouped_snoc seen item :
  grouped (seen ++ [item])
  = dict_set Z.eqb (grouped seen) (likes_count item)
      (dict_get_default Z.eqb (grouped seen) (likes_count item) []
       ++ [info_of item]).
Proof.
  unfold grouped, dict_get_default. rewrite map_app. simpl.
  rewrite distinct_snoc.
  set (L := likes_count item). set (ks := distinct (map likes_count seen)).
  destruct (in_dec Z.eq_dec L (map likes_count seen)) as [Hin | Hnin].
  - assert (Hks : In L ks) by (apply distinct_In; exact Hin).
    rewrite (dict_get_map Z.eqb Z.eqb_eq _ ks L Hks).
    rewrite (dict_set_map_in Z.eqb Z.eqb_eq _ ks L _
               (distinct_NoDup _) Hks).
    apply map_ext. intros K. rewrite group_of_snoc, map_app. fold L.
    rewrite (Z.eqb_sym L K).
    destruct (Z.eqb_spec K L) as [-> | _]; simpl;
      [reflexivity | rewrite app_nil_r; reflexivity].
  - assert (Hks : ~ In L ks) by (intros H; apply Hnin, distinct_In, H).
    rewrite dict_get_notin by (try apply Z.eqb_eq; rewrite keys_map; exact Hks).
    rewrite dict_set_notin by (try apply Z.eqb_eq; rewrite keys_map; exact Hks).
    rewrite map_app. simpl. f_equal.
    + apply map_ext_in. intros K HK. rewrite group_of_snoc. fold L.
      destruct (Z.eqb_spec L K) as [<- | _]; [contradiction|].
      rewrite app_nil_r. reflexivity.
    + rewrite group_of_snoc. fold L. rewrite Z.eqb_refl.
      rewrite (group_of_empty L seen Hnin). reflexivity.
Qed.

Lemma pars_items_grouped photo_items : forall seen,
  Forall selectable photo_items ->
  pars_items photo_items (grouped seen) = Ok (grouped (seen ++ photo_items)).
Proof.
  induction photo_items as [|item rest IH]; intros seen Hsel; simpl.
  - rewrite app_nil_r. reflexivity.
  - inversion Hsel as [|? ? Hitem Hrest]; subst.
    destruct (selectable_selected item Hitem) as (u & t & Hm & Hinfo).
    rewrite Hm. simpl. rewrite <- Hinfo, <- grouped_snoc.
    rewrite (IH (seen ++ [item]) Hrest), <- app_assoc. reflexivity.
Qed.

Lemma pars_photo_grouped photo_items :
  Forall selectable photo_items ->
  pars_photo (Z.of_nat (List.length photo_items)) photo_items
  = Ok (grouped photo_items).
Proof.
  intros Hsel. unfold pars_photo. rewrite Nat2Z.id.
  pose proof (pars_photo_loop_items photo_items [] []) as Hloop.
  simpl in Hloop. rewrite Hloop.
  apply (pars_items_grouped photo_items [] Hsel).
Qed.

Lemma pars_items_TypeError photo_items : forall result,
  Exists (fun item => max_size (sizes item) = Ok None) photo_items ->
  pars_items photo_items result = Raise TypeError.
Proof.
  induction photo_items as [|item rest IH]; intros result Hex; simpl.
  - inversion Hex.
  - destruct (max_size_spec (sizes item))
      as [[Hm _] | (i & best & _ & Hm & _)]; rewrite Hm; simpl;
      [reflexivity|].
    inversion Hex as [? ? Hhere | ? ? Hlater]; subst; [congruence|].
    apply IH. exact Hlater.
Qed.

(* ================================================================= *)
(** ** [extract_photo] *)

Lemma info_of_file_name item : info_file_name (info_of item) = likes_count item.
Proof. unfold info_of. destruct (selected item) as [[u t]|]; reflexivity. Qed.

Lemma extract_photo_group_spec photo_dict element group first others name :
  dict_getitem Z.eqb photo_dict element = Ok group ->
  group = first :: others ->
  forall members json_list json_dict,
    Forall (fun key => make_file_name element (List.length group) key = name)
           members ->
    extract_photo_group photo_dict element members json_list json_dict
    = Ok (json_list ++ map (fun key => mkEntry name (info_size key)) members,
          match members with
          | [] => json_dict
          | _ => dict_set String.eqb json_dict name (info_url first)
          end).
Proof.
  intros Hget Hgroup.
  induction members as [|key rest IH]; intros json_list json_dict Hall; simpl.
  - rewrite app_nil_r. reflexivity.
  - apply Forall_cons_iff in Hall as [Hkey Hrest].
    rewrite Hget. simpl. rewrite Hkey.
    replace (getitem group 0) with (Ok first) by (rewrite Hgroup; reflexivity).
    simpl.
    rewrite (IH _ _ Hrest), <- app_assoc. simpl. f_equal. f_equal.
    destruct rest; [reflexivity|].
    apply dict_set_idem. apply String.eqb_eq.
Qed.

Lemma extract_photo_group_whole photo_dict element group name :
  dict_getitem Z.eqb photo_dict element = Ok group ->
  group <> [] ->
  Forall (fun key => make_file_name element (List.length group) key = name)
         group ->
  forall json_list json_dict,
    extract_photo_group photo_dict element group json_list json_dict
    = Ok (json_list ++ map (fun key => mkEntry name (info_size key)) group,
          dict_set String.eqb json_dict name
            (match group with first :: _ => info_url first | [] => "" end)).
Proof.
  intros Hget Hne Hall json_list json_dict.
  destruct group as [|first others] eqn:E; [contradiction|].
  rewrite <- E in *.
  rewrite (extract_photo_group_spec _ _ _ first others name Hget E _ _ _ Hall).
  rewrite E. reflexivity.
Qed.

Lemma name_of_make photo_items L item :
  likes_count item = L ->
  make_file_name L (List.length (map info_of (group_of L photo_items)))
    (info_of item)
  = name_of photo_items L.
Proof.
  intros HL. unfold make_file_name, name_of.
  rewrite length_map, info_of_file_name, HL. reflexivity.
Qed.

Lemma extract_photo_loop_spec photo_items : forall todo json_list json_dict,
  (forall L, In L todo -> In L (map likes_count photo_items)) ->
  NoDup todo ->
  (forall L, In L todo -> ~ In (name_of photo_items L) (keys json_dict)) ->
  extract_photo_loop (grouped photo_items) todo json_list json_dict
  = Ok (json_list ++
          map (entry_of photo_items)
              (flat_map (fun L => group_of L photo_items) todo),
        json_dict ++
          map (fun L => (name_of photo_items L, group_url photo_items L)) todo).
Proof.
  induction todo as [|L todo IH]; intros json_list json_dict Hin Hnd Hfresh;
    simpl.
  - rewrite !app_nil_r. reflexivity.
  - inversion Hnd as [|? ? HL Hnd']; subst.
    assert (HinL : In L (map likes_count photo_items))
      by (apply Hin; left; reflexivity).
    assert (Hget : dict_getitem Z.eqb (grouped photo_items) L
                   = Ok (map info_of (group_of L photo_items))).
    { unfold dict_getitem, grouped.
      rewrite (dict_get_map Z.eqb Z.eqb_eq); [reflexivity|].
      apply distinct_In. exact HinL. }
    rewrite Hget. simpl.
    pose proof (group_of_nonempty L photo_items HinL) as Hne.
    assert (Hentries :
      map (fun key => mkEntry (name_of photo_items L) (info_size key))
          (map info_of (group_of L photo_items))
      = map (entry_of photo_items) (group_of L photo_items)).
    { rewrite map_map. apply map_ext_in. intros item Hitem. unfold entry_of.
      rewrite (group_of_likes L photo_items item Hitem). reflexivity. }
    assert (Hurl :
      match map info_of (group_of L photo_items) with
      | first :: _ => info_url first
      | [] => ""
      end = group_url photo_items L).
    { unfold group_url. destruct (group_of L photo_items); reflexivity. }
    rewrite (extract_photo_group_whole _ _ _ (name_of photo_items L) Hget).
    2:{ intros Hnil. apply map_eq_nil in Hnil. contradiction. }
    2:{ apply Forall_forall. intros key Hkey.
        apply in_map_iff in Hkey as (item & <- & Hitem).
        apply name_of_make. apply (group_of_likes L photo_items). exact Hitem. }
    unfold bind. rewrite Hentries, Hurl.
    rewrite dict_set_notin;
      [| apply String.eqb_eq | apply Hfresh; left; reflexivity].
    rewrite IH.
    + rewrite <- !app_assoc, map_app. reflexivity.
    + intros L' HL'. apply Hin. right. exact HL'.
    + exact Hnd'.
    + intros L' HL' Hk. unfold keys in Hk. rewrite map_app in Hk.
      apply in_app_or in Hk as [Hk | [Hk | []]].
      * apply (Hfresh L'); [right; exact HL' | exact Hk].
      * simpl in Hk. apply name_of_inj in Hk. subst L'. contradiction.
Qed.

(** The export of a collection every photo of which has something to
    select, in closed form. *)
Lemma extract_photo_spec photo_items :
  Forall selectable photo_items ->
  extract_photo (Z.of_nat (List.length photo_items)) photo_items
  = Ok (json_list_of photo_items, json_dict_of photo_items).
Proof.
  intros Hsel. unfold extract_photo.
  rewrite (pars_photo_grouped photo_items Hsel). simpl.
  unfold grouped at 2. rewrite keys_map.
  rewrite extract_photo_loop_spec.
  - reflexivity.
  - intros L HL. apply distinct_In. exact HL.
  - apply distinct_NoDup.
  - intros L _ [].
Qed.

(* ================================================================= *)
(** ** The photos group by group *)

Lemma filter_out_absent a ks :
  ~ In a ks -> filter (fun y => negb (y =? a)) ks = ks.
Proof.
  intros Hn. apply forallb_filter_id. apply forallb_forall. intros y Hy.
  destruct (Z.eqb_spec y a); [subst; contradiction | reflexivity].
Qed.

Lemma flat_map_filter_out {A : Type} (g : Z -> list A) a ks :
  NoDup ks -> In a ks ->
  Permutation (flat_map g ks)
              (g a ++ flat_map g (filter (fun y => negb (y =? a)) ks)).
Proof.
  induction ks as [|k ks IH]; intros Hnd Hin; [contradiction|].
  inversion Hnd as [|? ? Hk Hnd']; subst. simpl.
  destruct (Z.eqb_spec k a) as [-> | Hne]; simpl.
  - rewrite (filter_out_absent a ks Hk). reflexivity.
  - destruct Hin as [-> | Hin]; [contradiction|].
    rewrite (IH Hnd' Hin). apply Permutation_app_swap_app.
Qed.

Lemma flat_map_ext_in {A B : Type} (f g : A -> list B) l :
  (forall x, In x l -> f x = g x) -> flat_map f l = flat_map g l.
Proof.
  intros H. rewrite !flat_map_concat_map. f_equal. apply map_ext_in. exact H.
Qed.

Lemma by_group_cons item photo_items :
  by_group (item :: photo_items)
  = item :: group_of (likes_count item) photo_items ++
      flat_map (fun L => group_of L photo_items)
        (filter (fun y => negb (y =? likes_count item))
                (distinct (map likes_count photo_items))).
Proof.
  unfold by_group. simpl. rewrite Z.eqb_refl. simpl. f_equal. f_equal.
  apply flat_map_ext_in. intros L HL. apply filter_In in HL as [_ HL].
  unfold group_of at 1. simpl.
  destruct (Z.eqb_spec (likes_count item) L) as [E | _]; [|reflexivity].
  rewrite E, Z.eqb_refl in HL. discriminate.
Qed.

Lemma by_group_perm photo_items : Permutation (by_group photo_items) photo_items.
Proof.
  induction photo_items as [|item rest IH]; [reflexivity|].
  rewrite by_group_cons. apply perm_skip.
  destruct (in_dec Z.eq_dec (likes_count item) (map likes_count rest))
    as [Hin | Hnin].
  - apply Permutation_trans with (l' := by_group rest); [|exact IH].
    symmetry. unfold by_group.
    apply (flat_map_filter_out (fun L => group_of L rest));
      [apply distinct_NoDup | apply distinct_In, Hin].
  - rewrite (group_of_empty _ _ Hnin), filter_out_absent; [exact IH|].
    rewrite distinct_In. exact Hnin.
Qed.

Lemma by_group_NoDup photo_items :
  NoDup (map likes_count photo_items) -> by_group photo_items = photo_items.
Proof.
  induction photo_items as [|item rest IH]; simpl; intros Hnd; [reflexivity|].
  inversion Hnd as [|? ? Hitem Hnd']; subst.
  rewrite by_group_cons, (group_of_empty _ _ Hitem), filter_out_absent.
  - simpl. f_equal. apply IH. exact Hnd'.
  - rewrite distinct_In. exact Hitem.
Qed.

Lemma group_of_length_NoDup photo_items item :
  NoDup (map likes_count photo_items) -> In item photo_items ->
  List.length (group_of (likes_count item) photo_items) = 1%nat.
Proof.
  induction photo_items as [|x rest IH]; simpl; intros Hnd Hin; [contradiction|].
  inversion Hnd as [|? ? Hx Hnd']; subst.
  destruct Hin as [-> | Hin].
  - rewrite Z.eqb_refl. simpl. fold (group_of (likes_count item) rest).
    rewrite (group_of_empty _ _ Hx). reflexivity.
  - destruct (Z.eqb_spec (likes_count x) (likes_count item)) as [E | _].
    + exfalso. apply Hx. rewrite E. apply in_map. exact Hin.
    + apply IH; assumption.
Qed.

Lemma flat_map_length_ge {A : Type} (g : Z -> list A) L ks :
  NoDup ks -> In L ks ->
  (forall K, In K ks -> (1 <= List.length (g K))%nat) ->
  (List.length ks + List.length (g L) <= List.length (flat_map g ks) + 1)%nat.
Proof.
  intros Hnd Hin Hpos.
  assert (Hall : forall js, (forall K, In K js -> (1 <= List.length (g K))%nat) ->
            (List.length js <= List.length (flat_map g js))%nat).
  { induction js as [|j js IHjs]; simpl; intros Hjs; [lia|].
    rewrite length_app. specialize (Hjs j (or_introl eq_refl)) as Hj.
    assert (List.length js <= List.length (flat_map g js))%nat
      by (apply IHjs; intros K HK; apply Hjs; right; exact HK).
    lia. }
  induction ks as [|k ks IH]; [contradiction|].
  inversion Hnd as [|? ? Hk Hnd']; subst. simpl. rewrite length_app.
  destruct Hin as [-> | Hin].
  - assert (List.length ks <= List.length (flat_map g ks))%nat
      by (apply Hall; intros K HK; apply Hpos; right; exact HK).
    lia.
  - assert (1 <= List.length (g k))%nat by (apply Hpos; left; reflexivity).
    assert (List.length ks + List.length (g L)
            <= List.length (flat_map g ks) + 1)%nat
      by (apply IH; auto; intros K HK; apply Hpos; right; exact HK).
    lia.
Qed.

Lemma dict_get_map_inj {V : Type} (g : Z -> string) (h : Z -> V) ks L :
  (forall a b, g a = g b -> a = b) -> In L ks ->
  dict_get String.eqb (map (fun K => (g K, h K)) ks) (g L) = Some (h L).
Proof.
  intros Hinj. induction ks as [|k ks IH]; simpl; intros Hin; [contradiction|].
  destruct (String.eqb_spec (g L) (g k)) as [E | Hne].
  - apply Hinj in E. subst. reflexivity.
  - destruct Hin as [-> | Hin]; [contradiction|]. apply IH. exact Hin.
Qed.

Lemma count_occ_names photo_items L : forall l,
  count_occ string_dec
    (map (fun item => name_of photo_items (likes_count item)) l)
    (name_of photo_items L)
  = List.length (group_of L l).
Proof.
  induction l as [|item l IH]; simpl; [reflexivity|].
  destruct (string_dec (name_of photo_items (likes_count item))
                       (name_of photo_items L)) as [E | Hne].
  - apply name_of_inj in E. rewrite E, Z.eqb_refl. simpl.
    f_equal. exact IH.
  - destruct (Z.eqb_spec (likes_count item) L) as [E | _];
      [subst; contradiction | exact IH].
Qed.

(* ================================================================= *)
(** ** The export of a collection *)

Lemma well_formed_all_selectable photo_items :
  Forall well_formed photo_items -> Forall selectable photo_items.
Proof.
  intros H. eapply Forall_impl; [|exact H]. apply well_formed_selectable.
Qed.

Lemma name_of_multi photo_items L :
  (1 < List.length (group_of L photo_items))%nat ->
  name_of photo_items L = (str L ++ " " ++ str L ++ ".jpg")%string.
Proof.
  intros Hk. unfold name_of.
  destruct (Nat.eqb_spec (List.length (group_of L photo_items)) 1);
    [lia | reflexivity].
Qed.

Lemma name_of_single photo_items L :
  List.length (group_of L photo_items) = 1%nat ->
  name_of photo_items L = (str L ++ ".jpg")%string.
Proof. intros Hk. unfold name_of. rewrite Hk. reflexivity. Qed.

(** C1 (as amended): when a like count [L] occurs [k > 1] times in a
    collection of well-formed photos, [k] entries of the exported list are
    named ["L L.jpg"], and the export mapping holds under that name the
    url selected for the first photo with like count [L] in input
    order. *)
Theorem extract_photo_collision_keeps_first
    (photo_items : list photo_item) (L : Z) :
  Forall well_formed photo_items ->
  (1 < List.length (group_of L photo_items))%nat ->
  export_keeps first_of photo_items L.
Proof.
  intros Hwf Hk. apply well_formed_all_selectable in Hwf.
  destruct (group_of L photo_items) as [|first others] eqn:Eg;
    [simpl in Hk; lia|].
  assert (Hfirst : In first photo_items).
  { assert (H : In first (group_of L photo_items))
      by (rewrite Eg; left; reflexivity).
    apply filter_In in H. apply H. }
  assert (HinL : In L (map likes_count photo_items)).
  { rewrite <- (group_of_likes L photo_items first)
      by (rewrite Eg; left; reflexivity).
    apply in_map. exact Hfirst. }
  rewrite Forall_forall in Hwf.
  destruct (selectable_selected first (Hwf first Hfirst))
    as (photo_url & photo_size & Hm & Hinfo).
  rewrite <- Forall_forall in Hwf.
  exists (json_list_of photo_items), (json_dict_of photo_items),
         first, photo_url, photo_size.
  rewrite <- (name_of_multi photo_items L) by (rewrite Eg; exact Hk).
  split; [apply extract_photo_spec; exact Hwf|].
  split; [|split; [|split]].
  - unfold json_list_of. rewrite map_map. simpl.
    rewrite (proj1 (Permutation_count_occ string_dec _ _)
               (Permutation_map
                  (fun item => name_of photo_items (likes_count item))
                  (by_group_perm photo_items))).
    rewrite count_occ_names, Eg. reflexivity.
  - rewrite Eg. reflexivity.
  - exact Hm.
  - unfold json_dict_of.
    rewrite (dict_get_map_inj (name_of photo_items) (group_url photo_items)
               _ L (name_of_inj photo_items))
      by (apply distinct_In; exact HinL).
    unfold group_url. rewrite Eg, Hinfo. reflexivity.
Qed.

Lemma extract_photo_collision_keeps_first_witness :
  export_keeps first_of
    [mkItem 5 [mkSize 100 100 "u1" "x"]; mkItem 5 [mkSize 50 50 "u2" "y"]] 5.
Proof.
  apply extract_photo_collision_keeps_first.
  - repeat constructor; discriminate.
  - simpl. lia.
Defined.

(** C1 (as stated) fails on two well-formed photos with 5 likes each:
    the mapping holds the url of the first one, not of the last. *)
Lemma extract_photo_collision_not_last :
  Forall well_formed
    [mkItem 5 [mkSize 100 100 "u1" "x"]; mkItem 5 [mkSize 50 50 "u2" "y"]] /\
  (1 < List.length
         (group_of 5 [mkItem 5 [mkSize 100 100 "u1" "x"];
                      mkItem 5 [mkSize 50 50 "u2" "y"]]))%nat /\
  ~ export_keeps last_of
      [mkItem 5 [mkSize 100 100 "u1" "x"]; mkItem 5 [mkSize 50 50 "u2" "y"]] 5.
Proof.
  split; [repeat constructor; discriminate|].
  split; [simpl; lia|].
  intros (json_list & json_dict & member & photo_url & photo_size
          & Hex & _ & Hpick & Hm & Hget).
  vm_compute in Hex. injection Hex as _ <-.
  vm_compute in Hpick. injection Hpick as <-.
  vm_compute in Hm. injection Hm as <- _.
  vm_compute in Hget. discriminate.
Qed.

(** C2 (as amended): if some photo of the collection has an empty list
    of sizes, [extract_photo] raises [TypeError] (the unpacking of [None]
    in [pars_photo]) and returns no list and no mapping, whatever the
    other photos are. *)
Theorem extract_photo_empty_sizes_raises (photo_items : list photo_item) :
  Exists (fun item => sizes item = []) photo_items ->
  extract_photo (Z.of_nat (List.length photo_items)) photo_items
  = Raise TypeError.
Proof.
  intros Hex. unfold extract_photo, pars_photo. rewrite Nat2Z.id.
  pose proof (pars_photo_loop_items photo_items [] []) as Hloop.
  simpl in Hloop. rewrite Hloop, pars_items_TypeError; [reflexivity|].
  eapply Exists_impl; [|exact Hex].
  intros item Hnil. simpl in Hnil. rewrite Hnil. reflexivity.
Qed.

Lemma extract_photo_empty_sizes_raises_witness :
  extract_photo 3
    [mkItem 3 [mkSize 10 20 "a" "s"]; mkItem 4 []; mkItem 7 [mkSize 1 1 "c" "s"]]
  = Raise TypeError.
Proof.
  apply (extract_photo_empty_sizes_raises
    [mkItem 3 [mkSize 10 20 "a" "s"]; mkItem 4 []; mkItem 7 [mkSize 1 1 "c" "s"]]).
  apply Exists_cons_tl. apply Exists_cons_hd. reflexivity.
Defined.

(** C2 (as stated) fails on a collection whose second photo has no
    sizes: the export does not complete, though the export of the other
    two photos alone does. *)
Lemma extract_photo_halts_on_empty_sizes :
  ~ (exists json_list json_dict,
       extract_photo 3
         [mkItem 3 [mkSize 10 20 "a" "s"]; mkItem 4 [];
          mkItem 7 [mkSize 1 1 "c" "s"]]
       = Ok (json_list, json_dict)) /\
  extract_photo 2
    [mkItem 3 [mkSize 10 20 "a" "s"]; mkItem 7 [mkSize 1 1 "c" "s"]]
  = Ok ([mkEntry "3.jpg" "s"; mkEntry "7.jpg" "s"],
        [("3.jpg", "a"); ("7.jpg", "c")]).
Proof.
  split; [|reflexivity].
  intros (json_list & json_dict & H). vm_compute in H. discriminate.
Qed.

Lemma Forall2_map_self {A B : Type} (P : A -> B -> Prop) (f : A -> B) l :
  (forall x, In x l -> P x (f x)) -> Forall2 P l (map f l).
Proof.
  induction l as [|x l IH]; simpl; intros H; constructor.
  - apply H. left. reflexivity.
  - apply IH. intros y Hy. apply H. right. exact Hy.
Qed.

Lemma name_of_injective photo_items :
  Finite.Injective (name_of photo_items).
Proof. intros a b. apply name_of_inj. Qed.

(** C4: for a collection of well-formed photos the exported list has one
    entry per photo: it is the image, entry by entry, of a permutation of
    the collection, in which a photo whose like count [L] occurs once is
    named ["L.jpg"] and a photo whose like count occurs more than once is
    named ["L L.jpg"]. When the like counts are all distinct the entries
    follow the input order and their names are pairwise different. *)
Theorem extract_photo_names (photo_items : list photo_item) :
  Forall well_formed photo_items ->
  exists json_list json_dict,
    extract_photo (Z.of_nat (List.length photo_items)) photo_items
      = Ok (json_list, json_dict) /\
    List.length json_list = List.length photo_items /\
    (exists order,
       Permutation order photo_items /\
       Forall2
         (fun item entry =>
            let L := likes_count item in
            (List.length (group_of L photo_items) = 1%nat ->
             file_name entry = (str L ++ ".jpg")%string) /\
            ((1 < List.length (group_of L photo_items))%nat ->
             file_name entry = (str L ++ " " ++ str L ++ ".jpg")%string) /\
            selected item = Some (info_url (info_of item), size entry))
         order json_list) /\
    (NoDup (map likes_count photo_items) ->
     map file_name json_list
       = map (fun item => (str (likes_count item) ++ ".jpg")%string)
             photo_items /\
     NoDup (map file_name json_list)).
Proof.
  intros Hwf. apply well_formed_all_selectable in Hwf.
  exists (json_list_of photo_items), (json_dict_of photo_items).
  split; [apply extract_photo_spec; exact Hwf|].
  split; [|split].
  - unfold json_list_of. rewrite length_map.
    apply Permutation_length, by_group_perm.
  - exists (by_group photo_items). split; [apply by_group_perm|].
    unfold json_list_of. apply Forall2_map_self. intros item Hitem.
    simpl. split; [|split].
    + apply name_of_single.
    + apply name_of_multi.
    + assert (Hin : In item photo_items)
        by (eapply Permutation_in; [apply by_group_perm | exact Hitem]).
      rewrite Forall_forall in Hwf.
      destruct (selectable_selected item (Hwf item Hin))
        as (u & t & Hm & Hinfo).
      rewrite Hinfo. simpl. unfold selected. rewrite Hm. reflexivity.
  - intros Hnd. unfold json_list_of.
    rewrite (by_group_NoDup photo_items Hnd), map_map. simpl. split.
    + apply map_ext_in. intros item Hitem. apply name_of_single.
      apply group_of_length_NoDup; assumption.
    + rewrite <- (map_map likes_count (name_of photo_items)).
      apply Finite.Injective_map_NoDup; [apply name_of_injective | exact Hnd].
Qed.

Lemma extract_photo_names_witness :
  exists json_list json_dict,
    extract_photo 3
      [mkItem 3 [mkSize 10 20 "a" "s"; mkSize 30 10 "b" "m"];
       mkItem 7 [mkSize 1 1 "c" "s"];
       mkItem 3 [mkSize 2 2 "d" "o"]]
      = Ok (json_list, json_dict) /\
    List.length json_list = 3%nat.
Proof.
  destruct (extract_photo_names
      [mkItem 3 [mkSize 10 20 "a" "s"; mkSize 30 10 "b" "m"];
       mkItem 7 [mkSize 1 1 "c" "s"];
       mkItem 3 [mkSize 2 2 "d" "o"]])
    as (json_list & json_dict & Hex & Hlen & _).
  - repeat constructor; discriminate.
  - exists json_list, json_dict. split; [exact Hex | exact Hlen].
Defined.

(** C8: for a collection of well-formed photos the export mapping has
    one key per distinct like count of the input, the name of that like
    count, so as many entries as there are distinct like counts; a like
    count that occurs [k > 1] times contributes one entry, and the mapping
    is at least [k - 1] entries shorter than the collection. *)
Theorem extract_photo_one_key_per_like_count (photo_items : list photo_item) :
  Forall well_formed photo_items ->
  exists json_list json_dict,
    extract_photo (Z.of_nat (List.length photo_items)) photo_items
      = Ok (json_list, json_dict) /\
    keys json_dict
      = map (name_of photo_items) (distinct (map likes_count photo_items)) /\
    NoDup (keys json_dict) /\
    List.length json_dict
      = List.length (nodup Z.eq_dec (map likes_count photo_items)) /\
    (forall L, In L (map likes_count photo_items) ->
       List.length
         (filter (fun kv => String.eqb (fst kv) (name_of photo_items L))
                 json_dict) = 1%nat) /\
    (forall L, (1 < List.length (group_of L photo_items))%nat ->
       (List.length json_dict + (List.length (group_of L photo_items) - 1)
        <= List.length photo_items)%nat).
Proof.
  intros Hwf. apply well_formed_all_selectable in Hwf.
  exists (json_list_of photo_items), (json_dict_of photo_items).
  split; [apply extract_photo_spec; exact Hwf|].
  set (ks := distinct (map likes_count photo_items)).
  assert (Hkeys : keys (json_dict_of photo_items)
                  = map (name_of photo_items) ks).
  { unfold json_dict_of, keys. rewrite map_map. reflexivity. }
  assert (Hnd : NoDup (map (name_of photo_items) ks)).
  { apply Finite.Injective_map_NoDup;
      [apply name_of_injective | apply distinct_NoDup]. }
  split; [exact Hkeys|]. split; [rewrite Hkeys; exact Hnd|].
  split; [|split].
  - unfold json_dict_of. rewrite length_map. apply Permutation_length.
    apply NoDup_Permutation; [apply distinct_NoDup | apply NoDup_nodup|].
    intros x. rewrite distinct_In, nodup_In. reflexivity.
  - intros L HL.
    assert (Hin : In L ks) by (apply distinct_In; exact HL).
    assert (Hone : count_occ string_dec (map (name_of photo_items) ks)
                     (name_of photo_items L) = 1%nat).
    { apply NoDup_count_occ'; [exact Hnd | apply in_map; exact Hin]. }
    rewrite <- Hone. unfold json_dict_of. fold ks.
    clear. induction ks as [|k ks IH]; simpl; [reflexivity|].
    destruct (String.eqb_spec (name_of photo_items k) (name_of photo_items L));
      destruct (string_dec (name_of photo_items k) (name_of photo_items L));
      try contradiction; simpl; rewrite IH; reflexivity.
  - intros L Hk.
    assert (Hin : In L ks).
    { apply distinct_In. destruct (in_dec Z.eq_dec L (map likes_count photo_items))
        as [H | H]; [exact H|].
      rewrite (group_of_empty _ _ H) in Hk. simpl in Hk. lia. }
    pose proof (flat_map_length_ge (fun K => group_of K photo_items) L ks
                  (distinct_NoDup _) Hin) as Hge.
    assert (Hpos : forall K, In K ks ->
              (1 <= List.length (group_of K photo_items))%nat).
    { intros K HK. unfold ks in HK. rewrite distinct_In in HK.
      pose proof (group_of_nonempty K photo_items HK).
      destruct (group_of K photo_items); [contradiction | simpl; lia]. }
    specialize (Hge Hpos). cbv beta in Hge.
    pose proof (Permutation_length (by_group_perm photo_items)) as Hlen.
    unfold by_group in Hlen. fold ks in Hlen.
    unfold json_dict_of. fold ks. rewrite length_map. lia.
Qed.

Lemma extract_photo_one_key_per_like_count_witness :
  exists json_list json_dict,
    extract_photo 3
      [mkItem 3 [mkSize 10 20 "a" "s"; mkSize 30 10 "b" "m"];
       mkItem 7 [mkSize 1 1 "c" "s"];
       mkItem 3 [mkSize 2 2 "d" "o"]]
      = Ok (json_list, json_dict) /\
    List.length json_dict = 2%nat.
Proof.
  destruct (extract_photo_one_key_per_like_count
      [mkItem 3 [mkSize 10 20 "a" "s"; mkSize 30 10 "b" "m"];
       mkItem 7 [mkSize 1 1 "c" "s"];
       mkItem 3 [mkSize 2 2 "d" "o"]])
    as (json_list & json_dict & Hex & _ & _ & Hlen & _).
  - repeat constructor; discriminate.
  - exists json_list, json_dict. split; [exact Hex | exact Hlen].
Defined.

(* ================================================================= *)
(** ** [fill_folder] *)

Lemma skipped_app a b : skipped (a ++ b) = skipped a ++ skipped b.
Proof.
  induction a as [|l a IH]; simpl; [reflexivity|].
  destruct l; simpl; rewrite ?IH; reflexivity.
Qed.

Lemma posted_uploads self (l : list (string * string)) :
  posted (map (fun kv => upload_request self (fst kv) (snd kv)) l)
  = map (fun kv => upload_request self (fst kv) (snd kv)) l.
Proof.
  induction l as [|kv l IH]; simpl; [reflexivity|]. f_equal. exact IH.
Qed.

Section DiskFacts.
Variable World : Type.
Variable send : World -> request -> World * response.

(** The requests and the lines of one run of the loop. *)
Lemma fill_folder_loop_trace self files_in_folder : forall items count s,
  let s' := snd (fill_folder_loop World send self files_in_folder items count s) in
  sent s' = sent s ++
            map (fun kv => upload_request self (fst kv) (snd kv))
                (toUpload items files_in_folder) /\
  skipped (stdout s') = skipped (stdout s) ++ toSkip items files_in_folder.
Proof.
  induction items as [|[key url] items IH]; intros count s; simpl.
  - rewrite !app_nil_r. split; reflexivity.
  - unfold toUpload, toSkip. simpl.
    destruct (contains files_in_folder key); simpl.
    + unfold iobind, print. simpl.
      destruct (IH count (mkState World (world s) (sent s)
                            (stdout s ++ [AlreadyExists key]))) as [Hs Hk].
      simpl in Hs, Hk. split; [exact Hs|].
      rewrite Hk, skipped_app. simpl. rewrite <- app_assoc. reflexivity.
    + unfold iobind, requests_send, print.
      destruct (send (world s) (upload_request self key url)) as [w resp].
      destruct (status_code resp =? 202); simpl.
      * destruct (IH (count + 1)
                    (mkState World w (sent s ++ [upload_request self key url])
                       (stdout s ++ [PhotoAdded key]))) as [Hs Hk].
        simpl in Hs, Hk. split.
        -- rewrite Hs, <- app_assoc. reflexivity.
        -- rewrite Hk, skipped_app, app_nil_r. reflexivity.
      * destruct (IH count
                    (mkState World w (sent s ++ [upload_request self key url])
                       (stdout s ++ [UploadFailed key (json resp)])))
          as [Hs Hk].
        simpl in Hs, Hk. split.
        -- rewrite Hs, <- app_assoc. reflexivity.
        -- rewrite Hk, skipped_app, app_nil_r. reflexivity.
Qed.

Lemma folder_rec_trace self folder s :
  let s' := snd (folder_rec World send self folder s) in
  sent s' = sent s ++ [listing_request self folder] /\
  skipped (stdout s') = skipped (stdout s) /\
  world s' = fst (send (world s) (listing_request self folder)).
Proof.
  unfold folder_rec, iobind, requests_send, print, ret.
  destruct (send (world s) (listing_request self folder)) as [w resp].
  destruct (status_code resp =? 200); simpl;
    rewrite ?skipped_app, ?app_nil_r; auto.
Qed.

(** The requests of a run and the names it reports as present are
    those of the plan computed from the listing the run obtained. *)
Lemma fill_folder_trace self dict_files w :
  let remote := fst (folder_rec World send self (folder_name self) (start w)) in
  let final := snd (fill_folder World send self dict_files (start w)) in
  sent final
    = listing_request self (folder_name self) ::
      map (fun kv => upload_request self (fst kv) (snd kv))
          (toUpload dict_files remote) /\
  skipped (stdout final) = toSkip dict_files remote.
Proof.
  unfold fill_folder, iobind.
  pose proof (folder_rec_trace self (folder_name self) (start w)) as Hrec.
  destruct (folder_rec World send self (folder_name self) (start w))
    as [remote s1].
  simpl in Hrec. destruct Hrec as (Hs1 & Hk1 & _).
  pose proof (fill_folder_loop_trace self remote dict_files 0 s1) as Hloop.
  destruct (fill_folder_loop World send self remote dict_files 0 s1)
    as [count s2].
  simpl in Hloop. destruct Hloop as [Hs2 Hk2]. simpl.
  rewrite skipped_app, app_nil_r, Hs2, Hk2, Hs1, Hk1. split; reflexivity.
Qed.
End DiskFacts.

Lemma contains_true l key : contains l key = true <-> In key l.
Proof.
  unfold contains. rewrite existsb_exists. split.
  - intros (x & Hx & E). apply String.eqb_eq in E. subst. exact Hx.
  - intros H. exists key. split; [exact H | apply String.eqb_refl].
Qed.

Lemma toUpload_names exportSet remote :
  map fst (toUpload exportSet remote)
  = filter (fun key => negb (contains remote key)) (keys exportSet).
Proof.
  unfold toUpload, keys.
  induction exportSet as [|[key url] d IH]; simpl; [reflexivity|].
  destruct (contains remote key); simpl; rewrite IH; reflexivity.
Qed.

(** C5: the upload requests of a run of [fill_folder] and the names it
    reports as present are the two halves of the plan for the export
    mapping and the listing obtained: a key of the mapping is skipped when
    the listing has it and uploaded with its url otherwise, so that the
    uploaded and the skipped names together are the keys of the mapping
    and no name is in both. *)
Theorem fill_folder_partition (World : Type)
    (send : World -> request -> World * response)
    (self : YandexDisk) (dict_files : dict string string) (w : World) :
  let remote := fst (folder_rec World send self (folder_name self) (start w)) in
  let final := snd (fill_folder World send self dict_files (start w)) in
  posted (sent final)
    = map (fun kv => upload_request self (fst kv) (snd kv))
          (toUpload dict_files remote) /\
  skipped (stdout final) = toSkip dict_files remote /\
  (forall key url, In (key, url) (toUpload dict_files remote) <->
                   In (key, url) dict_files /\ ~ In key remote) /\
  (forall key, In key (toSkip dict_files remote) <->
               In key (keys dict_files) /\ In key remote) /\
  (forall key, In key (keys dict_files) <->
               In key (map fst (toUpload dict_files remote)) \/
               In key (toSkip dict_files remote)) /\
  (forall key, ~ (In key (map fst (toUpload dict_files remote)) /\
                  In key (toSkip dict_files remote))) /\
  Permutation (map fst (toUpload dict_files remote) ++ toSkip dict_files remote)
              (keys dict_files).
Proof.
  intros remote final.
  destruct (fill_folder_trace World send self dict_files w) as [Hsent Hskip].
  fold remote in Hsent, Hskip. fold final in Hsent, Hskip.
  split; [|split; [exact Hskip|]].
  { rewrite Hsent. simpl. apply posted_uploads. }
  assert (Hup : forall key, In key (map fst (toUpload dict_files remote)) <->
                            In key (keys dict_files) /\ ~ In key remote).
  { intros key. rewrite toUpload_names, filter_In, <- (contains_true remote key).
    destruct (contains remote key); simpl; intuition congruence. }
  assert (Hsk : forall key, In key (toSkip dict_files remote) <->
                            In key (keys dict_files) /\ In key remote).
  { intros key. unfold toSkip. rewrite filter_In, contains_true. reflexivity. }
  split; [|split; [exact Hsk|split; [|split]]].
  - intros key url. unfold toUpload.
    rewrite filter_In, <- (contains_true remote key). simpl.
    destruct (contains remote key); simpl; intuition congruence.
  - intros key. rewrite Hup, Hsk.
    destruct (in_dec string_dec key remote); tauto.
  - intros key. rewrite Hup, Hsk. tauto.
  - rewrite toUpload_names. unfold toSkip. rewrite Permutation_app_comm.
    clear. induction (keys dict_files) as [|key l IH]; simpl; [constructor|].
    destruct (contains remote key); simpl.
    + apply perm_skip. exact IH.
    + symmetry. apply Permutation_cons_app. symmetry. exact IH.
Qed.

(** C6: the plan a run of [fill_folder] carries out depends on the export
    mapping and on the listing only: two runs on the same mapping that
    obtain the same listing, against whatever service and in whatever
    state, send the same upload requests and skip the same names, in the
    same order. *)
Theorem fill_folder_plan_deterministic
    (World1 World2 : Type)
    (send1 : World1 -> request -> World1 * response)
    (send2 : World2 -> request -> World2 * response)
    (self : YandexDisk) (dict_files : dict string string)
    (w1 : World1) (w2 : World2) :
  fst (folder_rec World1 send1 self (folder_name self) (start w1))
  = fst (folder_rec World2 send2 self (folder_name self) (start w2)) ->
  posted (sent (snd (fill_folder World1 send1 self dict_files (start w1))))
  = posted (sent (snd (fill_folder World2 send2 self dict_files (start w2)))) /\
  skipped (stdout (snd (fill_folder World1 send1 self dict_files (start w1))))
  = skipped (stdout (snd (fill_folder World2 send2 self dict_files (start w2)))).
Proof.
  intros Hsame.
  destruct (fill_folder_trace World1 send1 self dict_files w1) as [Hs1 Hk1].
  destruct (fill_folder_trace World2 send2 self dict_files w2) as [Hs2 Hk2].
  rewrite Hs1, Hs2, Hk1, Hk2, Hsame. split; reflexivity.
Qed.

Lemma fill_folder_plan_deterministic_witness :
  posted (sent (snd (fill_folder _ disk_send (YandexDisk_init "t" "vk_photos")
                       [("3.jpg", "b"); ("5 5.jpg", "u1")]
                       (start [("vk_photos/3.jpg", "b")]))))
  = posted (sent (snd (fill_folder _ disk_send (YandexDisk_init "t" "vk_photos")
                         [("3.jpg", "b"); ("5 5.jpg", "u1")]
                         (start [("vk_photos/3.jpg", "old");
                                 ("elsewhere/5 5.jpg", "x")])))) /\
  skipped (stdout (snd (fill_folder _ disk_send (YandexDisk_init "t" "vk_photos")
                          [("3.jpg", "b"); ("5 5.jpg", "u1")]
                          (start [("vk_photos/3.jpg", "b")]))))
  = skipped (stdout (snd (fill_folder _ disk_send
                            (YandexDisk_init "t" "vk_photos")
                            [("3.jpg", "b"); ("5 5.jpg", "u1")]
                            (start [("vk_photos/3.jpg", "old");
                                    ("elsewhere/5 5.jpg", "x")])))).
Proof.
  apply (fill_folder_plan_deterministic _ _ disk_send disk_send
           (YandexDisk_init "t" "vk_photos")
           [("3.jpg", "b"); ("5 5.jpg", "u1")]
           [("vk_photos/3.jpg", "b")]
           [("vk_photos/3.jpg", "old"); ("elsewhere/5 5.jpg", "x")]).
  reflexivity.
Defined.

(* ================================================================= *)
(** ** The remote files a run leaves alone *)

Lemma append_inv_head (a b c : string) :
  (a ++ b)%string = (a ++ c)%string -> b = c.
Proof.
  induction a as [|x a IH]; simpl; intros H; [exact H|].
  injection H as H. apply IH. exact H.
Qed.

Lemma upload_request_path self key url :
  param (upload_request self key url) "path"
  = Some (folder_name self ++ "/" ++ key)%string.
Proof. reflexivity. Qed.

Section Frame.
Variable World : Type.
Variable send : World -> request -> World * response.
Variable content : World -> string -> option string.
Hypothesis frame : respects_frame send content.

Lemma fill_folder_loop_leaves_path self files_in_folder path :
  forall items count s,
    (forall key, In key (keys items) ->
                 (folder_name self ++ "/" ++ key)%string <> path) ->
    content
      (world (snd (fill_folder_loop World send self files_in_folder
                     items count s))) path
    = content (world s) path.
Proof.
  induction items as [|[key url] items IH]; intros count s Hother; simpl;
    [reflexivity|].
  assert (Hrest : forall k, In k (keys items) ->
            (folder_name self ++ "/" ++ k)%string <> path)
    by (intros k Hk; apply Hother; right; exact Hk).
  destruct (contains files_in_folder key); simpl.
  - unfold iobind, print. simpl. rewrite (IH _ _ Hrest). reflexivity.
  - unfold iobind, requests_send, print.
    pose proof (proj2 (frame (world s) (upload_request self key url) path)
                  eq_refl) as Hpost.
    rewrite upload_request_path in Hpost.
    assert (Hkeep : content
              (fst (send (world s) (upload_request self key url))) path
            = content (world s) path).
    { apply Hpost. intros [= E]. apply (Hother key); [left; reflexivity|].
      exact E. }
    destruct (send (world s) (upload_request self key url)) as [w resp].
    simpl in Hkeep.
    destruct (status_code resp =? 202); simpl;
      rewrite (IH _ _ Hrest); simpl; exact Hkeep.
Qed.

Lemma fill_folder_leaves_path self dict_files w path :
  (forall key, In key (keys dict_files) ->
               (folder_name self ++ "/" ++ key)%string <> path) ->
  content (world (snd (fill_folder World send self dict_files (start w)))) path
  = content w path.
Proof.
  intros Hother. unfold fill_folder, iobind.
  pose proof (folder_rec_trace World send self (folder_name self) (start w))
    as Hrec.
  destruct (folder_rec World send self (folder_name self) (start w))
    as [remote s1].
  simpl in Hrec. destruct Hrec as (_ & _ & Hw1).
  pose proof (fill_folder_loop_leaves_path self remote path dict_files 0 s1 Hother)
    as Hloop.
  destruct (fill_folder_loop World send self remote dict_files 0 s1)
    as [count s2].
  simpl in *. rewrite Hloop, Hw1.
  apply (proj1 (frame w (listing_request self (folder_name self)) path)).
  reflexivity.
Qed.
End Frame.

Lemma disk_send_respects_frame : respects_frame disk_send disk_content.
Proof.
  intros w r path. unfold disk_send, disk_content. split; intros Hm.
  - rewrite Hm. destruct (param r "path"); reflexivity.
  - intros Hpath. rewrite Hm.
    destruct (param r "path") as [p|]; [|reflexivity].
    destruct (param r "url") as [u|]; [|reflexivity]. simpl.
    assert (Hne : p <> path) by congruence.
    clear - Hne. induction w as [|[k v] w IH]; simpl.
    + destruct (String.eqb_spec path p); [congruence | reflexivity].
    + destruct (String.eqb_spec p k) as [-> | Hpk]; simpl.
      * destruct (String.eqb_spec path k); [congruence | reflexivity].
      * rewrite IH. reflexivity.
Qed.

(** C10: a run of [fill_folder] sends the listing request and, after it,
    only upload requests ([POST] to [/upload]) for entries of its input
    mapping: no request that deletes or moves a file. Hence, against a
    service on which a listing changes no file and an upload changes at
    most the file at its path, the file of the folder under a name that is
    not a key of the mapping is after the run what it was before. *)
Theorem fill_folder_frame (World : Type)
    (send : World -> request -> World * response)
    (content : World -> string -> option string)
    (self : YandexDisk) (dict_files : dict string string) (w : World) :
  respects_frame send content ->
  let final := snd (fill_folder World send self dict_files (start w)) in
  (exists uploads,
     sent final = listing_request self (folder_name self) :: uploads /\
     Forall (fun r => exists key url,
                        In (key, url) dict_files /\
                        r = upload_request self key url) uploads) /\
  Forall (fun r => method r = GET \/
                   (method r = POST /\
                    req_url r = (yd_url self ++ "/upload")%string))
         (sent final) /\
  (forall name, ~ In name (keys dict_files) ->
     content (world final) (folder_name self ++ "/" ++ name)%string
     = content w (folder_name self ++ "/" ++ name)%string).
Proof.
  intros Hframe final.
  destruct (fill_folder_trace World send self dict_files w) as [Hsent _].
  fold final in Hsent.
  assert (Hups : Forall (fun r => exists key url,
                    In (key, url) dict_files /\
                    r = upload_request self key url)
            (map (fun kv => upload_request self (fst kv) (snd kv))
               (toUpload dict_files
                  (fst (folder_rec World send self (folder_name self)
                          (start w)))))).
  { apply Forall_forall. intros r Hr.
    apply in_map_iff in Hr as ([key url] & <- & Hin).
    exists key, url. split; [|reflexivity].
    unfold toUpload in Hin. apply filter_In in Hin. apply Hin. }
  split; [|split].
  - eexists. split; [exact Hsent | exact Hups].
  - rewrite Hsent. constructor; [left; reflexivity|].
    eapply Forall_impl; [|exact Hups].
    intros r (key & url & _ & ->). right. split; reflexivity.
  - intros name Hname. unfold final.
    apply (fill_folder_leaves_path World send content Hframe).
    intros key Hkey E. apply append_inv_head in E.
    apply (append_inv_head "/") in E. subst. contradiction.
Qed.

Lemma fill_folder_frame_witness :
  disk_content
    (world (snd (fill_folder _ disk_send (YandexDisk_init "t" "vk_photos")
                   [("3.jpg", "b"); ("5 5.jpg", "u1")]
                   (start [("vk_photos/3.jpg", "old");
                           ("vk_photos/8.jpg", "kept")]))))
    "vk_photos/8.jpg"
  = Some "kept".
Proof.
  apply (proj2 (proj2 (fill_folder_frame _ disk_send disk_content
                  (YandexDisk_init "t" "vk_photos")
                  [("3.jpg", "b"); ("5 5.jpg", "u1")]
                  [("vk_photos/3.jpg", "old"); ("vk_photos/8.jpg", "kept")]
                  disk_send_respects_frame)) "8.jpg").
  simpl. intros [H | [H | []]]; discriminate.
Defined.

(* ================================================================= *)
(** ** [max_size] on arbitrary integers *)

(** For any list of sizes, of whatever integer width and height,
    [max_size] raises nothing (the index of line 40 is always in range);
    it returns [None] exactly when no entry has a positive area, and
    otherwise the url and type of the first entry of the largest area,
    which is positive. *)
Theorem max_size_any_integers (dict_photo : list photo_size) :
  (exists r, max_size dict_photo = Ok r) /\
  (max_size dict_photo = Ok None <->
   Forall (fun p => area p <= 0) dict_photo) /\
  (forall photo_url photo_type,
     max_size dict_photo = Ok (Some (photo_url, photo_type)) ->
     exists i best,
       nth_error dict_photo i = Some best /\
       url best = photo_url /\ type best = photo_type /\
       0 < area best /\
       Forall (fun p => area p <= area best) dict_photo /\
       (forall j p, (j < i)%nat -> nth_error dict_photo j = Some p ->
                    area p < area best)).
Proof.
  destruct (max_size_spec dict_photo)
    as [[Hm Hle] | (i & best & Hi & Hm & Hpos & Hmax & Hfirst)].
  - split; [eexists; exact Hm|]. split.
    + split; [intros _; apply Forall_forall; exact Hle | intros _; exact Hm].
    + intros u t H. congruence.
  - split; [eexists; exact Hm|]. split.
    + split; [congruence|]. intros Hall. rewrite Forall_forall in Hall.
      apply nth_error_In in Hi. specialize (Hall best Hi). lia.
    + intros u t H. rewrite Hm in H. injection H as <- <-.
      exists i, best. repeat split; auto.
      apply Forall_forall. exact Hmax.
Qed.

Lemma no_positive_area_None item :
  no_positive_area item <-> max_size (sizes item) = Ok None.
Proof.
  unfold no_positive_area.
  destruct (max_size_spec (sizes item))
    as [[Hm Hle] | (i & best & Hi & Hm & Hpos & _)].
  - split; [intros _; exact Hm | intros _; apply Forall_forall; exact Hle].
  - split; [|congruence]. intros Hall. rewrite Forall_forall in Hall.
    apply nth_error_In in Hi. specialize (Hall best Hi). lia.
Qed.

Lemma selectable_or_not item : selectable item \/ no_positive_area item.
Proof.
  destruct (max_size_spec (sizes item))
    as [[_ Hle] | (i & best & Hi & _ & Hpos & _)].
  - right. apply Forall_forall. exact Hle.
  - left. exists best. split; [eapply nth_error_In; eauto | exact Hpos].
Qed.

Lemma all_selectable_or_not photo_items :
  Forall selectable photo_items \/ Exists no_positive_area photo_items.
Proof.
  induction photo_items as [|item rest IH]; [left; constructor|].
  destruct (selectable_or_not item) as [Hs | Hn];
    [|right; apply Exists_cons_hd; exact Hn].
  destruct IH as [Hall | Hex];
    [left; constructor; assumption | right; apply Exists_cons_tl; exact Hex].
Qed.

Lemma not_both_selectable photo_items :
  Forall selectable photo_items -> ~ Exists no_positive_area photo_items.
Proof.
  intros Hall Hex. rewrite Forall_forall in Hall. rewrite Exists_exists in Hex.
  destruct Hex as (item & Hin & Hn). destruct (Hall item Hin) as (p & Hp & Hpos).
  unfold no_positive_area in Hn. rewrite Forall_forall in Hn.
  specialize (Hn p Hp). lia.
Qed.

(* ================================================================= *)
(** ** [pars_photo] and the count of the response *)

Lemma pars_photo_loop_prefix photo_items : forall seen rest result,
  pars_photo_loop (seen ++ photo_items ++ rest)
    (seq (List.length seen) (List.length photo_items)) result
  = pars_items photo_items result.
Proof.
  induction photo_items as [|item more IH]; intros seen rest result; simpl;
    [reflexivity|].
  unfold getitem. rewrite nth_error_app2, Nat.sub_diag by lia. simpl.
  destruct (max_size (sizes item)) as [[[photo_url photo_size]|]|e]; simpl;
    try reflexivity.
  specialize (IH (seen ++ [item]) rest).
  rewrite <- app_assoc, length_app, Nat.add_comm in IH. simpl in IH.
  apply IH.
Qed.

Lemma pars_photo_loop_app photo_items counts1 : forall counts2 result,
  pars_photo_loop photo_items (counts1 ++ counts2) result
  = (result' <- pars_photo_loop photo_items counts1 result ;;
     pars_photo_loop photo_items counts2 result').
Proof.
  induction counts1 as [|count counts1 IH]; intros counts2 result; simpl;
    [reflexivity|].
  destruct (getitem photo_items count) as [item|e]; simpl; [|reflexivity].
  destruct (max_size (sizes item)) as [[[photo_url photo_size]|]|e]; simpl;
    try reflexivity.
  apply IH.
Qed.

Lemma pars_photo_items photo_items rest :
  pars_photo (Z.of_nat (List.length photo_items)) (photo_items ++ rest)
  = pars_items photo_items [].
Proof.
  unfold pars_photo. rewrite Nat2Z.id.
  apply (pars_photo_loop_prefix photo_items [] rest []).
Qed.

(** [pars_photo] and [extract_photo] read the first [photo_count] items
    only: what follows them in the list, well-formed or not, changes
    nothing. *)
Theorem extract_photo_ignores_beyond_count
    (photo_items rest : list photo_item) :
  pars_photo (Z.of_nat (List.length photo_items)) (photo_items ++ rest)
  = pars_photo (Z.of_nat (List.length photo_items)) photo_items /\
  extract_photo (Z.of_nat (List.length photo_items)) (photo_items ++ rest)
  = extract_photo (Z.of_nat (List.length photo_items)) photo_items.
Proof.
  assert (H : pars_photo (Z.of_nat (List.length photo_items))
                (photo_items ++ rest)
              = pars_photo (Z.of_nat (List.length photo_items)) photo_items).
  { rewrite pars_photo_items.
    pose proof (pars_photo_items photo_items []) as H0.
    rewrite app_nil_r in H0. symmetry. exact H0. }
  split; [exact H|]. unfold extract_photo. rewrite H. reflexivity.
Qed.

(** With a count of zero or less the loop of [pars_photo] does not run:
    the export is empty, whatever the items are. *)
Theorem extract_photo_nonpositive_count
    (photo_count : Z) (photo_items : list photo_item) :
  photo_count <= 0 ->
  pars_photo photo_count photo_items = Ok [] /\
  extract_photo photo_count photo_items = Ok ([], []).
Proof.
  intros Hc. unfold extract_photo, pars_photo.
  replace (Z.to_nat photo_count) with 0%nat by lia. split; reflexivity.
Qed.

Lemma extract_photo_nonpositive_count_witness :
  pars_photo (-1) [mkItem 4 []] = Ok [] /\
  extract_photo (-1) [mkItem 4 []] = Ok ([], []).
Proof. apply extract_photo_nonpositive_count. lia. Defined.

Lemma pars_items_outcome photo_items : forall seen,
  (Forall selectable photo_items /\
   pars_items photo_items (grouped seen) = Ok (grouped (seen ++ photo_items))) \/
  (Exists no_positive_area photo_items /\
   forall result, pars_items photo_items result = Raise TypeError).
Proof.
  intros seen. destruct (all_selectable_or_not photo_items) as [Hall | Hex].
  - left. split; [exact Hall | apply pars_items_grouped; exact Hall].
  - right. split; [exact Hex|]. intros result. apply pars_items_TypeError.
    eapply Exists_impl; [|exact Hex]. intros item. apply no_positive_area_None.
Qed.

(** When the count of the response exceeds the number of items received,
    [extract_photo] raises: [IndexError] at the first missing item if every
    item received has a size of positive area, [TypeError] before that
    otherwise. *)
Theorem extract_photo_count_beyond_items
    (photo_count : Z) (photo_items : list photo_item) :
  Z.of_nat (List.length photo_items) < photo_count ->
  (Forall selectable photo_items /\
   extract_photo photo_count photo_items = Raise IndexError) \/
  (Exists no_positive_area photo_items /\
   extract_photo photo_count photo_items = Raise TypeError).
Proof.
  intros Hc. unfold extract_photo, pars_photo.
  set (n := List.length photo_items) in *.
  replace (Z.to_nat photo_count) with (n + S (Z.to_nat photo_count - S n))%nat
    by lia.
  rewrite seq_app, pars_photo_loop_app. simpl.
  pose proof (pars_photo_loop_prefix photo_items [] [] []) as Hloop.
  simpl in Hloop. rewrite app_nil_r in Hloop. fold n in Hloop. rewrite Hloop.
  destruct (pars_items_outcome photo_items []) as [[Hall Hok] | [Hex Hraise]].
  - left. split; [exact Hall|].
    change (grouped []) with (@nil (Z * list photo_info)) in Hok.
    rewrite Hok. simpl. unfold getitem.
    replace (nth_error photo_items n) with (@None photo_item)
      by (symmetry; apply nth_error_None; unfold n; lia).
    reflexivity.
  - right. split; [exact Hex|]. rewrite Hraise. reflexivity.
Qed.

Lemma extract_photo_count_beyond_items_witness :
  (Forall selectable [mkItem 3 [mkSize 10 20 "a" "s"]] /\
   extract_photo 2 [mkItem 3 [mkSize 10 20 "a" "s"]] = Raise IndexError) \/
  (Exists no_positive_area [mkItem 3 [mkSize 10 20 "a" "s"]] /\
   extract_photo 2 [mkItem 3 [mkSize 10 20 "a" "s"]] = Raise TypeError).
Proof.
  apply (extract_photo_count_beyond_items 2 [mkItem 3 [mkSize 10 20 "a" "s"]]).
  simpl. lia.
Defined.

(** With the count equal to the number of items, [extract_photo] has two
    outcomes only: it raises [TypeError] when some photo has no size of
    positive area (no size at all, or sizes of width or height 0), and it
    returns a list with an entry per photo otherwise; the look-ups of
    lines 135, 136 and 141 never fail. *)
Theorem extract_photo_outcome (photo_items : list photo_item) :
  (Exists no_positive_area photo_items /\
   extract_photo (Z.of_nat (List.length photo_items)) photo_items
   = Raise TypeError) \/
  (Forall selectable photo_items /\
   exists json_list json_dict,
     extract_photo (Z.of_nat (List.length photo_items)) photo_items
     = Ok (json_list, json_dict) /\
     List.length json_list = List.length photo_items).
Proof.
  destruct (all_selectable_or_not photo_items) as [Hall | Hex].
  - right. split; [exact Hall|].
    exists (json_list_of photo_items), (json_dict_of photo_items).
    split; [apply extract_photo_spec; exact Hall|].
    unfold json_list_of. rewrite length_map.
    apply Permutation_length, by_group_perm.
  - left. split; [exact Hex|]. unfold extract_photo.
    pose proof (pars_photo_items photo_items []) as Hp.
    rewrite app_nil_r in Hp. rewrite Hp, pars_items_TypeError; [reflexivity|].
    eapply Exists_impl; [|exact Hex]. intros item. apply no_positive_area_None.
Qed.

(* ================================================================= *)
(** ** What the grouping and the mapping keep *)

Lemma grouped_concat photo_items :
  List.concat (map snd (grouped photo_items))
  = map info_of (by_group photo_items).
Proof.
  unfold grouped, by_group. rewrite map_map. simpl.
  rewrite flat_map_concat_map, concat_map, map_map. reflexivity.
Qed.

(** [pars_photo] groups without loss: for photos that all have a size of
    positive area, the keys of its result are the like counts of the
    input, each once, in the order of their first appearance; the group
    under [L] lists the photos with [L] likes in input order, each with
    ['file_name'] [L] and the url and type [max_size] selects; and the
    groups together hold every photo exactly once. *)
Theorem pars_photo_groups (photo_items : list photo_item) :
  Forall selectable photo_items ->
  exists result,
    pars_photo (Z.of_nat (List.length photo_items)) photo_items = Ok result /\
    NoDup (keys result) /\
    (forall L, In L (keys result) <-> In L (map likes_count photo_items)) /\
    (forall L group, In (L, group) result ->
       group <> [] /\
       map info_file_name group = map (fun _ => L) (group_of L photo_items) /\
       Forall2 (fun item info =>
                  max_size (sizes item)
                  = Ok (Some (info_url info, info_size info)))
               (group_of L photo_items) group) /\
    Permutation (List.concat (map snd result)) (map info_of photo_items).
Proof.
  intros Hsel. exists (grouped photo_items).
  split; [apply pars_photo_grouped; exact Hsel|].
  assert (Hkeys : keys (grouped photo_items)
                  = distinct (map likes_count photo_items)).
  { unfold grouped. apply keys_map. }
  split; [rewrite Hkeys; apply distinct_NoDup|].
  split; [intros L; rewrite Hkeys; apply distinct_In|].
  split.
  - intros L group Hin. unfold grouped in Hin.
    apply in_map_iff in Hin as (K & [= -> <-] & HK).
    rewrite distinct_In in HK. split; [|split].
    + intros Hnil. apply map_eq_nil in Hnil.
      exact (group_of_nonempty L photo_items HK Hnil).
    + rewrite map_map. apply map_ext_in. intros item Hitem.
      rewrite info_of_file_name. apply (group_of_likes L photo_items item Hitem).
    + apply Forall2_map_self. intros item Hitem.
      apply filter_In in Hitem as [Hitem _].
      rewrite Forall_forall in Hsel.
      destruct (selectable_selected item (Hsel item Hitem))
        as (u & t & Hm & Hinfo).
      rewrite Hinfo. exact Hm.
  - rewrite grouped_concat. apply Permutation_map, by_group_perm.
Qed.

Lemma pars_photo_groups_witness :
  exists result,
    pars_photo 3
      [mkItem 3 [mkSize 10 20 "a" "s"]; mkItem 7 [mkSize 1 1 "c" "s"];
       mkItem 3 [mkSize 2 2 "d" "o"]] = Ok result /\
    NoDup (keys result).
Proof.
  destruct (pars_photo_groups
      [mkItem 3 [mkSize 10 20 "a" "s"]; mkItem 7 [mkSize 1 1 "c" "s"];
       mkItem 3 [mkSize 2 2 "d" "o"]])
    as (result & Hp & Hnd & _).
  - repeat constructor; eexists; (split; [left; reflexivity | reflexivity]).
  - exists result. split; [exact Hp | exact Hnd].
Defined.

Lemma max_size_member dict_photo photo_url photo_type :
  max_size dict_photo = Ok (Some (photo_url, photo_type)) ->
  exists p, In p dict_photo /\ url p = photo_url /\ type p = photo_type.
Proof.
  intros H. destruct (max_size_spec dict_photo)
    as [[Hm _] | (i & best & Hi & Hm & _)]; [congruence|].
  rewrite Hm in H. injection H as <- <-. exists best.
  split; [eapply nth_error_In; eauto | split; reflexivity].
Qed.

Lemma group_url_selected photo_items L first others :
  Forall selectable photo_items ->
  group_of L photo_items = first :: others ->
  exists photo_type,
    max_size (sizes first) = Ok (Some (group_url photo_items L, photo_type)).
Proof.
  intros Hsel Eg. unfold group_url. rewrite Eg.
  assert (Hin : In first photo_items).
  { assert (H : In first (group_of L photo_items))
      by (rewrite Eg; left; reflexivity).
    apply filter_In in H. apply H. }
  rewrite Forall_forall in Hsel.
  destruct (selectable_selected first (Hsel first Hin)) as (u & t & Hm & Hinfo).
  exists t. rewrite Hinfo. exact Hm.
Qed.

Lemma json_dict_of_entry photo_items name photo_url :
  Forall selectable photo_items ->
  In (name, photo_url) (json_dict_of photo_items) ->
  exists first photo_type p,
    In first photo_items /\
    hd_error (group_of (likes_count first) photo_items) = Some first /\
    name = name_of photo_items (likes_count first) /\
    max_size (sizes first) = Ok (Some (photo_url, photo_type)) /\
    In p (sizes first) /\ url p = photo_url.
Proof.
  intros Hsel Hin. unfold json_dict_of in Hin.
  apply in_map_iff in Hin as (L & [= <- <-] & HL).
  rewrite distinct_In in HL.
  pose proof (group_of_nonempty L photo_items HL) as Hne.
  destruct (group_of L photo_items) as [|first others] eqn:Eg; [contradiction|].
  destruct (group_url_selected photo_items L first others Hsel Eg) as (t & Hm).
  assert (Hf : In first (group_of L photo_items))
    by (rewrite Eg; left; reflexivity).
  pose proof (group_of_likes L photo_items first Hf) as HLf.
  destruct (max_size_member _ _ _ Hm) as (p & Hp & Hu & _).
  exists first, t, p. rewrite HLf, Eg.
  apply filter_In in Hf as [Hf _]. repeat split; auto.
Qed.

(** The export mapping of photos that all have a size of positive area:
    under the name of a photo's like count it holds the url [max_size]
    selects for the first photo with that like count (the photo itself
    when its like count is unique), and it holds nothing else: every
    entry is the name of a like count of the input with the url of one of
    the sizes of the first photo of that count. *)
Theorem extract_photo_mapping_values (photo_items : list photo_item) :
  Forall selectable photo_items ->
  exists json_list json_dict,
    extract_photo (Z.of_nat (List.length photo_items)) photo_items
      = Ok (json_list, json_dict) /\
    (forall item, In item photo_items ->
       exists first photo_url photo_type,
         hd_error (group_of (likes_count item) photo_items) = Some first /\
         max_size (sizes first) = Ok (Some (photo_url, photo_type)) /\
         dict_get String.eqb json_dict
           (name_of photo_items (likes_count item)) = Some photo_url) /\
    (forall name photo_url, In (name, photo_url) json_dict ->
       exists first photo_type p,
         In first photo_items /\
         hd_error (group_of (likes_count first) photo_items) = Some first /\
         name = name_of photo_items (likes_count first) /\
         max_size (sizes first) = Ok (Some (photo_url, photo_type)) /\
         In p (sizes first) /\ url p = photo_url).
Proof.
  intros Hsel.
  exists (json_list_of photo_items), (json_dict_of photo_items).
  split; [apply extract_photo_spec; exact Hsel|]. split.
  - intros item Hitem.
    assert (HL : In (likes_count item) (map likes_count photo_items))
      by (apply in_map; exact Hitem).
    pose proof (group_of_nonempty _ _ HL) as Hne.
    destruct (group_of (likes_count item) photo_items) as [|first others] eqn:Eg;
      [contradiction|].
    destruct (group_url_selected _ _ _ _ Hsel Eg) as (t & Hm).
    exists first, (group_url photo_items (likes_count item)), t.
    split; [reflexivity|]. split; [exact Hm|].
    unfold json_dict_of.
    apply (dict_get_map_inj (name_of photo_items) (group_url photo_items));
      [apply name_of_inj | apply distinct_In; exact HL].
  - intros name photo_url. apply json_dict_of_entry. exact Hsel.
Qed.

Lemma extract_photo_mapping_values_witness :
  exists json_list json_dict,
    extract_photo 2
      [mkItem 3 [mkSize 10 20 "a" "s"]; mkItem 3 [mkSize 2 2 "d" "o"]]
      = Ok (json_list, json_dict) /\
    forall name photo_url, In (name, photo_url) json_dict ->
      exists first photo_type p,
        In first [mkItem 3 [mkSize 10 20 "a" "s"]; mkItem 3 [mkSize 2 2 "d" "o"]] /\
        hd_error (group_of (likes_count first)
                    [mkItem 3 [mkSize 10 20 "a" "s"];
                     mkItem 3 [mkSize 2 2 "d" "o"]]) = Some first /\
        name = name_of [mkItem 3 [mkSize 10 20 "a" "s"];
                        mkItem 3 [mkSize 2 2 "d" "o"]] (likes_count first) /\
        max_size (sizes first) = Ok (Some (photo_url, photo_type)) /\
        In p (sizes first) /\ url p = photo_url.
Proof.
  destruct (extract_photo_mapping_values
      [mkItem 3 [mkSize 10 20 "a" "s"]; mkItem 3 [mkSize 2 2 "d" "o"]])
    as (json_list & json_dict & Hex & _ & Hvals).
  - repeat constructor; eexists; (split; [left; reflexivity | reflexivity]).
  - exists json_list, json_dict. split; [exact Hex | exact Hvals].
Defined.

Lemma distinct_length l :
  (List.length (distinct l) <= List.length l)%nat /\
  (List.length (distinct l) = List.length l <-> NoDup l).
Proof.
  assert (Hincl : incl (distinct l) l)
    by (intros x Hx; apply distinct_In; exact Hx).
  assert (Hle : (List.length (distinct l) <= List.length l)%nat)
    by (apply NoDup_incl_length; [apply distinct_NoDup | exact Hincl]).
  split; [exact Hle|]. split.
  - intros Heq. eapply NoDup_incl_NoDup;
      [apply (distinct_NoDup l) | lia | exact Hincl].
  - intros Hnd. apply Nat.le_antisymm; [exact Hle|].
    apply NoDup_incl_length; [exact Hnd|].
    intros x Hx. apply distinct_In. exact Hx.
Qed.

(** The export loses photos exactly when like counts repeat: for photos
    that all have a size of positive area, the list and the mapping name
    the same files, the mapping never has more entries than there are
    photos, and it has as many if and only if the like counts are
    pairwise different. *)
Theorem extract_photo_lossless_iff_distinct (photo_items : list photo_item) :
  Forall selectable photo_items ->
  exists json_list json_dict,
    extract_photo (Z.of_nat (List.length photo_items)) photo_items
      = Ok (json_list, json_dict) /\
    (forall name, In name (map file_name json_list) <->
                  In name (keys json_dict)) /\
    (List.length json_dict <= List.length photo_items)%nat /\
    (List.length json_dict = List.length photo_items <->
     NoDup (map likes_count photo_items)).
Proof.
  intros Hsel.
  exists (json_list_of photo_items), (json_dict_of photo_items).
  split; [apply extract_photo_spec; exact Hsel|].
  assert (Hlen : List.length (json_dict_of photo_items)
                 = List.length (distinct (map likes_count photo_items)))
    by (unfold json_dict_of; apply length_map).
  pose proof (distinct_length (map likes_count photo_items)) as [Hle Hiff].
  rewrite length_map in Hle, Hiff.
  split; [|split; [lia | rewrite Hlen; exact Hiff]].
  intros name. unfold json_list_of, json_dict_of, keys.
  rewrite !map_map. simpl. rewrite !in_map_iff. split.
  - intros (item & <- & Hitem). exists (likes_count item).
    split; [reflexivity|]. apply distinct_In, in_map.
    eapply Permutation_in; [apply by_group_perm | exact Hitem].
  - intros (L & <- & HL). rewrite distinct_In in HL.
    apply in_map_iff in HL as (item & <- & Hitem). exists item.
    split; [reflexivity|].
    eapply Permutation_in; [symmetry; apply by_group_perm | exact Hitem].
Qed.

Lemma extract_photo_lossless_iff_distinct_witness :
  exists json_list json_dict,
    extract_photo 2
      [mkItem 3 [mkSize 10 20 "a" "s"]; mkItem 3 [mkSize 2 2 "d" "o"]]
      = Ok (json_list, json_dict) /\
    (List.length json_dict <= 2)%nat.
Proof.
  destruct (extract_photo_lossless_iff_distinct
      [mkItem 3 [mkSize 10 20 "a" "s"]; mkItem 3 [mkSize 2 2 "d" "o"]])
    as (json_list & json_dict & Hex & _ & Hle & _).
  - repeat constructor; eexists; (split; [left; reflexivity | reflexivity]).
  - exists json_list, json_dict. split; [exact Hex | exact Hle].
Defined.

(** The exported list is ordered by group, not by input: the like counts
    come in the order of their first appearance, and the photos of a like
    count, which all carry one name, follow one another in input order
    with the types [max_size] selects for them. *)
Theorem extract_photo_list_order (photo_items : list photo_item) :
  Forall selectable photo_items ->
  exists json_list json_dict,
    extract_photo (Z.of_nat (List.length photo_items)) photo_items
      = Ok (json_list, json_dict) /\
    map file_name json_list
      = flat_map (fun L => repeat (name_of photo_items L)
                             (List.length (group_of L photo_items)))
                 (distinct (map likes_count photo_items)) /\
    Forall2 (fun item entry =>
               exists photo_url,
                 max_size (sizes item) = Ok (Some (photo_url, size entry)))
            (flat_map (fun L => group_of L photo_items)
                      (distinct (map likes_count photo_items)))
            json_list.
Proof.
  intros Hsel.
  exists (json_list_of photo_items), (json_dict_of photo_items).
  split; [apply extract_photo_spec; exact Hsel|]. split.
  - unfold json_list_of, by_group. rewrite map_map. simpl.
    induction (distinct (map likes_count photo_items)) as [|L ks IH]; simpl;
      [reflexivity|].
    rewrite map_app, IH. f_equal.
    assert (Hg : forall item, In item (group_of L photo_items) ->
                              likes_count item = L)
      by (intros item; apply group_of_likes).
    induction (group_of L photo_items) as [|item g IHg]; simpl; [reflexivity|].
    rewrite (Hg item (or_introl eq_refl)). f_equal.
    apply IHg. intros x Hx. apply Hg. right. exact Hx.
  - unfold json_list_of, by_group. apply Forall2_map_self.
    intros item Hitem.
    assert (Hin : In item photo_items).
    { apply in_flat_map in Hitem as (L & _ & Hitem).
      apply filter_In in Hitem. apply Hitem. }
    rewrite Forall_forall in Hsel.
    destruct (selectable_selected item (Hsel item Hin)) as (u & t & Hm & Hinfo).
    exists u. unfold entry_of. rewrite Hinfo. exact Hm.
Qed.

Lemma extract_photo_list_order_witness :
  exists json_list json_dict,
    extract_photo 3
      [mkItem 3 [mkSize 10 20 "a" "s"]; mkItem 7 [mkSize 1 1 "c" "s"];
       mkItem 3 [mkSize 2 2 "d" "o"]]
      = Ok (json_list, json_dict) /\
    map file_name json_list = ["3 3.jpg"; "3 3.jpg"; "7.jpg"].
Proof.
  destruct (extract_photo_list_order
      [mkItem 3 [mkSize 10 20 "a" "s"]; mkItem 7 [mkSize 1 1 "c" "s"];
       mkItem 3 [mkSize 2 2 "d" "o"]])
    as (json_list & json_dict & Hex & Hnames & _).
  - repeat constructor; eexists; (split; [left; reflexivity | reflexivity]).
  - exists json_list, json_dict. split; [exact Hex | exact Hnames].
Defined.

(* ================================================================= *)
(** ** What [fill_folder] reports *)


Lemma added_app a b : added (a ++ b) = added a + added b.
Proof.
  induction a as [|l a IH]; [reflexivity|].
  destruct l; cbn [app added]; rewrite IH; lia.
Qed.

Lemma accepted_bounds resps :
  0 <= accepted resps <= Z.of_nat (List.length resps).
Proof.
  induction resps as [|resp resps IH]; [simpl; lia|].
  cbn [accepted List.length]. destruct (status_code resp =? 202); lia.
Qed.

Section ReportFacts.
Variable World : Type.
Variable send : World -> request -> World * response.

Lemma run_log_snoc w0 log r w1 resps :
  run_log World send w0 log = (w1, resps) ->
  run_log World send w0 (log ++ [r])
  = (fst (send w1 r), resps ++ [snd (send w1 r)]).
Proof.
  revert w0 w1 resps. induction log as [|r0 log IH]; intros w0 w1 resps; simpl.
  - intros [= <- <-]. destruct (send w0 r). reflexivity.
  - destruct (send w0 r0) as [w' resp0].
    destruct (run_log World send w' log) as [w'' resps'] eqn:E.
    intros [= <- <-]. rewrite (IH _ _ _ E). reflexivity.
Qed.

Local Opaque Z.add.

Lemma fill_folder_loop_report self files_in_folder w0 :
  forall items count s resps,
    run_log World send w0 (sent s) = (world s, resps) ->
    let r := fill_folder_loop World send self files_in_folder items count s in
    exists out new,
      stdout (snd r) = stdout s ++ out /\
      reported out = keys items /\
      List.length out = List.length items /\
      run_log World send w0 (sent (snd r)) = (world (snd r), resps ++ new) /\
      fst r = count + added out /\
      added out = accepted new /\
      List.length new = List.length (toUpload items files_in_folder).
Proof.
  induction items as [|[key url] items IH]; intros count s resps Hlog; simpl.
  - exists [], []. rewrite !app_nil_r. simpl. repeat split; auto. lia.
  - unfold toUpload. simpl.
    destruct (contains files_in_folder key); simpl.
    + unfold iobind, print. simpl.
      destruct (IH count (mkState World (world s) (sent s)
                            (stdout s ++ [AlreadyExists key])) resps Hlog)
        as (out & new & Hout & Hrep & Hlen & Hrun & Hcount & Hadd & Hnew).
      exists (AlreadyExists key :: out), new. simpl in *.
      rewrite Hout, <- app_assoc, Hrep, Hlen. repeat split; auto.
    + unfold iobind, requests_send, print.
      pose proof (run_log_snoc w0 (sent s) (upload_request self key url)
                    _ _ Hlog) as Hsnoc.
      destruct (send (world s) (upload_request self key url)) as [w resp].
      simpl in Hsnoc.
      destruct (status_code resp =? 202) eqn:E; simpl.
      * destruct (IH (count + 1)
                    (mkState World w (sent s ++ [upload_request self key url])
                       (stdout s ++ [PhotoAdded key])) (resps ++ [resp]) Hsnoc)
          as (out & new & Hout & Hrep & Hlen & Hrun & Hcount & Hadd & Hnew).
        exists (PhotoAdded key :: out), (resp :: new). simpl in *.
        rewrite Hout, <- !app_assoc, Hrep, Hlen, E. simpl.
        rewrite <- app_assoc in Hrun. simpl in Hrun.
        repeat split; auto; try lia.
      * destruct (IH count
                    (mkState World w (sent s ++ [upload_request self key url])
                       (stdout s ++ [UploadFailed key (json resp)]))
                    (resps ++ [resp]) Hsnoc)
          as (out & new & Hout & Hrep & Hlen & Hrun & Hcount & Hadd & Hnew).
        exists (UploadFailed key (json resp) :: out), (resp :: new). simpl in *.
        rewrite Hout, <- !app_assoc, Hrep, Hlen, E. simpl.
        rewrite <- app_assoc in Hrun. simpl in Hrun.
        repeat split; auto; try lia.
Qed.

(** The output of a run: the line of a failed listing if any, a line per
    entry of the mapping, the total. *)
Lemma fill_folder_report self dict_files w :
  let remote := fst (folder_rec World send self (folder_name self) (start w)) in
  let final := snd (fill_folder World send self dict_files (start w)) in
  exists head out resp0 new count,
    stdout final = head ++ out ++ [AddedTotal count] /\
    (head = [] \/ exists body, head = [ListingFailed body]) /\
    reported out = keys dict_files /\
    List.length out = List.length dict_files /\
    run_log World send w (sent final) = (world final, resp0 :: new) /\
    count = added out /\
    count = accepted new /\
    List.length new = List.length (toUpload dict_files remote).
Proof.
  unfold fill_folder, iobind.
  assert (Hrec : exists head,
    stdout (snd (folder_rec World send self (folder_name self) (start w)))
      = head /\
    (head = [] \/ exists body, head = [ListingFailed body]) /\
    run_log World send w
      (sent (snd (folder_rec World send self (folder_name self) (start w))))
    = (world (snd (folder_rec World send self (folder_name self) (start w))),
       [snd (send w (listing_request self (folder_name self)))])).
  { unfold folder_rec, iobind, requests_send, print, ret. simpl.
    destruct (send w (listing_request self (folder_name self)))
      as [w1 resp] eqn:Es.
    destruct (status_code resp =? 200); simpl; rewrite ?Es; eexists;
      (split; [reflexivity|]); (split; [|reflexivity]);
      [left; reflexivity | right; eexists; reflexivity]. }
  destruct (folder_rec World send self (folder_name self) (start w))
    as [remote s1].
  simpl in Hrec. destruct Hrec as (head & Hhead & Hshape & Hlog).
  destruct (fill_folder_loop_report self remote w dict_files 0 s1 _ Hlog)
    as (out & new & Hout & Hrep & Hlen & Hrun & Hcount & Hadd & Hnew).
  destruct (fill_folder_loop World send self remote dict_files 0 s1)
    as [count s2].
  simpl in *.
  exists head, out, (snd (send w (listing_request self (folder_name self)))),
         new, count.
  rewrite Hout, Hhead, <- app_assoc. repeat split; auto; lia.
Qed.
Local Transparent Z.add.
End ReportFacts.


(** The total [fill_folder] prints last is the number of photos it
    reported as added, which is the number of its upload requests that
    the service answered with status 202; it lies between 0 and the number
    of upload requests sent. *)
Theorem fill_folder_total (World : Type)
    (send : World -> request -> World * response)
    (self : YandexDisk) (dict_files : dict string string) (w : World) :
  let final := snd (fill_folder World send self dict_files (start w)) in
  exists out count,
    stdout final = out ++ [AddedTotal count] /\
    count = added out /\
    fst (run_log World send w (sent final)) = world final /\
    count = accepted (tl (snd (run_log World send w (sent final)))) /\
    0 <= count <= Z.of_nat (List.length (posted (sent final))).
Proof.
  intros final.
  destruct (fill_folder_report World send self dict_files w)
    as (head & out & resp0 & new & count
        & Hout & Hhead & _ & _ & Hrun & Hadd & Hacc & Hnew).
  destruct (fill_folder_trace World send self dict_files w) as [Hsent _].
  fold final in Hout, Hrun, Hsent.
  exists (head ++ out), count. rewrite Hrun. simpl.
  split; [rewrite Hout, app_assoc; reflexivity|].
  split; [|split; [reflexivity|split; [exact Hacc|]]].
  - rewrite added_app, Hadd.
    destruct Hhead as [-> | (body & ->)]; reflexivity.
  - rewrite Hsent. simpl. rewrite posted_uploads, length_map, <- Hnew, Hacc.
    apply accepted_bounds.
Qed.




Lemma toUpload_all_listed (exportSet : dict string string) remote :
  (forall key, In key (keys exportSet) -> In key remote) ->
  toUpload exportSet remote = [] /\ toSkip exportSet remote = keys exportSet.
Proof.
  unfold toUpload, toSkip, keys.
  induction exportSet as [|[key url] d IH]; simpl; intros Hall;
    [split; reflexivity|].
  assert (Hc : contains remote key = true)
    by (apply contains_true, Hall; left; reflexivity).
  rewrite Hc. simpl.
  destruct IH as [IH1 IH2]; [intros k Hk; apply Hall; right; exact Hk|].
  rewrite IH1, IH2. split; reflexivity.
Qed.

(** When the listing has every key of the mapping, [fill_folder] sends
    the listing request and nothing else: it reports each name as present,
    a total of 0, and leaves the service in the state the listing left
    it in. *)
Theorem fill_folder_all_present (World : Type)
    (send : World -> request -> World * response)
    (self : YandexDisk) (dict_files : dict string string) (w : World) :
  (forall key, In key (keys dict_files) ->
     In key (fst (folder_rec World send self (folder_name self) (start w)))) ->
  let final := snd (fill_folder World send self dict_files (start w)) in
  sent final = [listing_request self (folder_name self)] /\
  skipped (stdout final) = keys dict_files /\
  world final = fst (send w (listing_request self (folder_name self))) /\
  exists out, stdout final = out ++ [AddedTotal 0].
Proof.
  intros Hall final.
  destruct (fill_folder_trace World send self dict_files w) as [Hsent Hskip].
  destruct (toUpload_all_listed dict_files _ Hall) as [Hup Hsk].
  fold final in Hsent, Hskip. rewrite Hup in Hsent. rewrite Hsk in Hskip.
  simpl in Hsent.
  destruct (fill_folder_report World send self dict_files w)
    as (head & out & resp0 & new & count
        & Hout & _ & _ & _ & Hrun & _ & Hacc & Hnew).
  fold final in Hout, Hrun. rewrite Hup in Hnew. simpl in Hnew.
  destruct new; [|discriminate]. simpl in Hacc. subst count.
  split; [exact Hsent|]. split; [exact Hskip|]. split.
  - rewrite Hsent in Hrun. simpl in Hrun.
    destruct (send w (listing_request self (folder_name self))).
    injection Hrun as <- _. reflexivity.
  - exists (head ++ out). rewrite Hout, app_assoc. reflexivity.
Qed.

Lemma fill_folder_all_present_witness :
  sent (snd (fill_folder _ disk_send (YandexDisk_init "t" "vk_photos")
               [("3.jpg", "b")] (start [("vk_photos/3.jpg", "old")])))
  = [listing_request (YandexDisk_init "t" "vk_photos") "vk_photos"].
Proof.
  apply (fill_folder_all_present _ disk_send (YandexDisk_init "t" "vk_photos")
           [("3.jpg", "b")] [("vk_photos/3.jpg", "old")]).
  simpl. intros key [<- | []]. left. reflexivity.
Defined.

(* ================================================================= *)
(** ** [create_folder] *)



(* ================================================================= *)
(** ** The script *)

Lemma upload_request_key self key url key' url' :
  upload_request self key url = upload_request self key' url' -> key = key'.
Proof.
  unfold upload_request. intros [= H _].
  apply append_inv_head in H. apply (append_inv_head "/") in H. exact H.
Qed.

Lemma NoDup_uploads self (l : list (string * string)) :
  NoDup (keys l) ->
  NoDup (map (fun kv => upload_request self (fst kv) (snd kv)) l).
Proof.
  unfold keys. induction l as [|kv l IH]; simpl; intros Hnd; constructor.
  - inversion Hnd as [|? ? Hk _]; subst. intros Hin.
    apply in_map_iff in Hin as (kv' & E & Hkv').
    apply upload_request_key in E. apply Hk. rewrite <- E.
    apply in_map. exact Hkv'.
  - apply IH. inversion Hnd. assumption.
Qed.

Lemma NoDup_keys_filter (f : string * string -> bool) l :
  NoDup (keys l) -> NoDup (keys (filter f l)).
Proof.
  unfold keys. induction l as [|kv l IH]; simpl; intros Hnd; [constructor|].
  inversion Hnd as [|? ? Hk Hnd']; subst.
  destruct (f kv); simpl; [constructor|]; auto.
  intros Hin. apply Hk. apply in_map_iff in Hin as (kv' & E & Hkv').
  apply filter_In in Hkv' as [Hkv' _]. rewrite <- E. apply in_map. exact Hkv'.
Qed.

Lemma distinct_length_nodup l :
  List.length (distinct l) = List.length (nodup Z.eq_dec l).
Proof.
  apply Permutation_length.
  apply NoDup_Permutation; [apply distinct_NoDup | apply NoDup_nodup|].
  intros x. rewrite distinct_In, nodup_In. reflexivity.
Qed.

(** The script end to end, for a first answer of the photo API whose
    photos all have a size of positive area and whose count is the number
    of its items, and a second answer that exports: it ends, having sent
    the listing request and then upload requests only, never the request
    that creates the folder; the uploads are pairwise different, at most
    one per distinct like count, each for the name of a like count of the
    first answer with the url selected for the first photo of that
    count. The mapping printed is that of the second answer. *)
Theorem run_script_uploads (World : Type)
    (send : World -> request -> World * response)
    (photo_items : list photo_item)
    (fetch2 : outcome (Z * list photo_item))
    (json_list2 : list json_entry) (json_dict2 : dict string string)
    (token_yandex : string) (w : World) :
  Forall selectable photo_items ->
  VK_extract fetch2 = Ok (json_list2, json_dict2) ->
  let yandex := YandexDisk_init token_yandex "vk_photos" in
  exists vk_json final uploads,
    run_script World send
      (Ok (Z.of_nat (List.length photo_items), photo_items)) fetch2
      token_yandex w
    = Ok (json_dict2, vk_json, final) /\
    List.length vk_json = List.length photo_items /\
    sent final = listing_request yandex "vk_photos" :: uploads /\
    ~ In (creation_request yandex "vk_photos") (sent final) /\
    NoDup uploads /\
    (List.length uploads
     <= List.length (nodup Z.eq_dec (map likes_count photo_items)))%nat /\
    Forall (fun r =>
              exists first photo_url photo_type,
                In first photo_items /\
                hd_error (group_of (likes_count first) photo_items)
                  = Some first /\
                max_size (sizes first) = Ok (Some (photo_url, photo_type)) /\
                r = upload_request yandex
                      (name_of photo_items (likes_count first)) photo_url)
           uploads.
Proof.
  intros Hsel Hfetch2 yandex. unfold run_script. rewrite Hfetch2.
  unfold VK_extract. simpl. rewrite (extract_photo_spec photo_items Hsel). simpl.
  fold yandex.
  destruct (fill_folder_trace World send yandex (json_dict_of photo_items) w)
    as [Hsent _].
  set (remote := fst (folder_rec World send yandex (folder_name yandex)
                        (start w))) in *.
  set (final := snd (fill_folder World send yandex (json_dict_of photo_items)
                       (start w))) in *.
  assert (Hkeys : NoDup (keys (json_dict_of photo_items))).
  { unfold json_dict_of, keys. rewrite map_map. simpl.
    apply Finite.Injective_map_NoDup;
      [apply name_of_injective | apply distinct_NoDup]. }
  exists (json_list_of photo_items), final,
    (map (fun kv => upload_request yandex (fst kv) (snd kv))
         (toUpload (json_dict_of photo_items) remote)).
  split; [reflexivity|]. split; [|split; [exact Hsent|split; [|split; [|split]]]].
  - unfold json_list_of. rewrite length_map.
    apply Permutation_length, by_group_perm.
  - rewrite Hsent. intros [H | H]; [discriminate|].
    apply in_map_iff in H as (kv & H & _). discriminate.
  - apply NoDup_uploads, NoDup_keys_filter. exact Hkeys.
  - rewrite length_map, <- distinct_length_nodup.
    unfold toUpload. etransitivity; [apply filter_length_le|].
    unfold json_dict_of. rewrite length_map. apply Nat.le_refl.
  - apply Forall_forall. intros r Hr.
    apply in_map_iff in Hr as ([name photo_url] & <- & Hin).
    unfold toUpload in Hin. apply filter_In in Hin as [Hin _].
    destruct (json_dict_of_entry photo_items name photo_url Hsel Hin)
      as (first & t & p & Hf & Hhd & -> & Hm & _).
    exists first, photo_url, t. auto.
Qed.

Lemma run_script_uploads_witness :
  exists vk_json final uploads,
    run_script _ disk_send
      (Ok (2, [mkItem 5 [mkSize 100 100 "u1" "x"];
               mkItem 5 [mkSize 50 50 "u2" "y"]]))
      (Ok (0, [])) "t" []
    = Ok ([], vk_json, final) /\
    sent final
    = listing_request (YandexDisk_init "t" "vk_photos") "vk_photos" :: uploads /\
    (List.length uploads <= 1)%nat.
Proof.
  destruct (run_script_uploads _ disk_send
              [mkItem 5 [mkSize 100 100 "u1" "x"];
               mkItem 5 [mkSize 50 50 "u2" "y"]]
              (Ok (0, [])) [] [] "t" [])
    as (vk_json & final & uploads & Hrun & _ & Hsent & _ & _ & Hlen & _).
  - repeat constructor; eexists; (split; [left; reflexivity | reflexivity]).
  - reflexivity.
  - exists vk_json, final, uploads. repeat split; assumption.
Defined.

(** The export of line 245 serves the printing only, yet the run depends
    on it: if the second answer of the photo API, with its count equal to
    the number of its items, has a photo without a size of positive area,
    the script raises before [fill_folder] is reached, whatever the first
    answer was: with the exception of the first export if that one raised,
    with [TypeError] otherwise. *)
Theorem run_script_second_export_aborts (World : Type)
    (send : World -> request -> World * response)
    (fetch1 : outcome (Z * list photo_item))
    (photo_items2 : list photo_item) (token_yandex : string) (w : World) :
  Exists no_positive_area photo_items2 ->
  (exists e, VK_extract fetch1 = Raise e /\
             run_script World send fetch1
               (Ok (Z.of_nat (List.length photo_items2), photo_items2))
               token_yandex w = Raise e) \/
  ((exists exported, VK_extract fetch1 = Ok exported) /\
   run_script World send fetch1
     (Ok (Z.of_nat (List.length photo_items2), photo_items2))
     token_yandex w = Raise TypeError).
Proof.
  intros Hex. unfold run_script.
  destruct (VK_extract fetch1) as [[vk_json vk_export_dict]|e] eqn:E1; simpl.
  - right. split; [eexists; reflexivity|].
    unfold extract_photo.
    pose proof (pars_photo_items photo_items2 []) as Hp.
    rewrite app_nil_r in Hp. rewrite Hp, pars_items_TypeError; [reflexivity|].
    eapply Exists_impl; [|exact Hex]. intros item. apply no_positive_area_None.
  - left. exists e. split; reflexivity.
Qed.

Lemma run_script_second_export_aborts_witness :
  (exists e, VK_extract (Ok (1, [mkItem 3 [mkSize 10 20 "a" "s"]])) = Raise e /\
             run_script _ disk_send (Ok (1, [mkItem 3 [mkSize 10 20 "a" "s"]]))
               (Ok (1, [mkItem 3 [mkSize 0 0 "a" "s"]])) "t" [] = Raise e) \/
  ((exists exported,
      VK_extract (Ok (1, [mkItem 3 [mkSize 10 20 "a" "s"]])) = Ok exported) /\
   run_script _ disk_send (Ok (1, [mkItem 3 [mkSize 10 20 "a" "s"]]))
     (Ok (1, [mkItem 3 [mkSize 0 0 "a" "s"]])) "t" [] = Raise TypeError).
Proof.
  apply (run_script_second_export_aborts _ disk_send
           (Ok (1, [mkItem 3 [mkSize 10 20 "a" "s"]]))
           [mkItem 3 [mkSize 0 0 "a" "s"]] "t" []).
  apply Exists_cons_hd. unfold no_positive_area. simpl.
  constructor; [unfold area; simpl; lia | constructor].
Defined.

(* ================================================================= *)
(** ** The two scenarios of the specification, run on the small disk *)

(** One photo with 3 likes, the name already in the folder: the larger
    size is selected, the name is skipped and nothing is uploaded. *)
Example scenario_already_present :
  extract_photo 1 [mkItem 3 [mkSize 10 20 "a" "s"; mkSize 30 10 "b" "m"]]
    = Ok ([mkEntry "3.jpg" "m"], [("3.jpg", "b")]) /\
  let final := snd (fill_folder _ disk_send (YandexDisk_init "t" "vk_photos")
                      [("3.jpg", "b")] (start [("vk_photos/3.jpg", "old")])) in
  posted (sent final) = [] /\
  stdout final = [AlreadyExists "3.jpg"; AddedTotal 0].
Proof. repeat split. Qed.

(** Two photos with 5 likes each, an empty folder: one name, the url of
    the first photo, one upload. *)
Example scenario_collision :
  extract_photo 2
    [mkItem 5 [mkSize 100 100 "u1" "x"]; mkItem 5 [mkSize 50 50 "u2" "y"]]
    = Ok ([mkEntry "5 5.jpg" "x"; mkEntry "5 5.jpg" "y"], [("5 5.jpg", "u1")]) /\
  let self := YandexDisk_init "t" "vk_photos" in
  let final := snd (fill_folder _ disk_send self [("5 5.jpg", "u1")] (start [])) in
  posted (sent final) = [upload_request self "5 5.jpg" "u1"] /\
  stdout final = [PhotoAdded "5 5.jpg"; AddedTotal 1] /\
  disk_content (world final) "vk_photos/5 5.jpg" = Some "u1".
Proof. repeat split. Qed.
